(** * Completion detection of the Zellij MCP server

    A shallow embedding of [src/tools/detection.ts] (class [DetectionTools])
    and of the part of [src/utils/validator.ts] and [src/utils/command.ts]
    it calls.  JavaScript strings are [string]s of code units, numbers that
    the code only compares and prints are integers ([Z]), the two static
    [Map]s of [DetectionTools] are [gmap]s, and the callbacks that Node's
    event loop runs (timers, [fs.watchFile] listeners, stream handlers) are
    transitions of one explicit [State].

    Beside the detection tools the development covers the validators and
    the rate limiter of [src/utils/validator.ts], the cache of
    [src/utils/cache.ts], and [listLayouts] and [saveLayout] of
    [src/tools/layouts.ts], which share that cache. *)

From Stdlib Require Import ZArith Ascii String.
From stdpp Require Import base option list gmap strings pretty.

Local Open Scope string_scope.
Local Open Scope list_scope.
Local Open Scope Z_scope.

(** ** JavaScript strings *)

Module Js.

(** The double quote, written by its code: the templates of the source
    contain many of them. *)
Definition dq : string := String "034"%char EmptyString.

(** ["..."] inside a template literal. *)
Definition quoted (s : string) : string := dq +:+ s +:+ dq.

Definition nl : string := String "010"%char EmptyString.

(** [String.prototype.includes]. *)
Fixpoint includes (s p : string) : bool :=
  String.prefix p s ||
  match s with
  | EmptyString => false
  | String _ s' => includes s' p
  end.

(** WhiteSpace and LineTerminator code units below 256: TAB, LF, VT, FF,
    CR, SP and NBSP.  [trim] and the regular expression class [\s] use
    the same set. *)
Definition is_ws (c : ascii) : bool :=
  let n := nat_of_ascii c in
  ((9 <=? n) && (n <=? 13) || (n =? 32) || (n =? 160))%nat.

Fixpoint trimStart (s : string) : string :=
  match s with
  | EmptyString => EmptyString
  | String c s' => if is_ws c then trimStart s' else s
  end.

Fixpoint trimEnd (s : string) : string :=
  match s with
  | EmptyString => EmptyString
  | String c s' =>
      match trimEnd s' with
      | EmptyString => if is_ws c then EmptyString else String c EmptyString
      | t => String c t
      end
  end.

(** [String.prototype.trim]. *)
Definition trim (s : string) : string := trimEnd (trimStart s).

(** [s.trim().split(/\s+/)] on a trimmed string: its maximal runs of
    non-blank characters. *)
Fixpoint split_ws_aux (s : string) (cur : string) : list string :=
  match s with
  | EmptyString => match cur with EmptyString => [] | _ => [cur] end
  | String c s' =>
      if is_ws c
      then match cur with
           | EmptyString => split_ws_aux s' EmptyString
           | _ => cur :: split_ws_aux s' EmptyString
           end
      else split_ws_aux s' (cur +:+ String c EmptyString)
  end.

Definition split_ws (s : string) : list string := split_ws_aux s EmptyString.

(** [Array.prototype.join]. *)
Fixpoint join (sep : string) (l : list string) : string :=
  match l with
  | [] => EmptyString
  | [x] => x
  | x :: l' => x +:+ sep +:+ join sep l'
  end.

(** [String.prototype.toLowerCase] on code units below 256: the letters
    A to Z and the capital letters of Latin-1 (192 to 222, but for the
    multiplication sign 215) move up by 32. *)
Definition lower_char (c : ascii) : ascii :=
  let n := nat_of_ascii c in
  if ((65 <=? n) && (n <=? 90)
      || (192 <=? n) && (n <=? 222) && negb (n =? 215))%nat
  then ascii_of_nat (n + 32)
  else c.

Fixpoint toLowerCase (s : string) : string :=
  match s with
  | EmptyString => EmptyString
  | String c s' => String (lower_char c) (toLowerCase s')
  end.

(** [Array.prototype.includes] on an array of strings. *)
Definition array_includes (l : list string) (x : string) : bool :=
  existsb (fun y => bool_decide (y = x)) l.

(** A number as the code sees it after [parseInt]: not-a-number or an
    integer.  The code only compares it with integer constants and prints
    it, so the rounding of large values to doubles is not modelled. *)
Inductive num : Type :=
| NaN
| Num (z : Z).

Definition isNaN (n : num) : bool :=
  match n with NaN => true | Num _ => false end.

Definition digit_value (c : ascii) : option Z :=
  let n := Z.of_nat (nat_of_ascii c) in
  if (48 <=? n) && (n <=? 57) then Some (n - 48)
  else if (97 <=? n) && (n <=? 122) then Some (n - 87)
  else if (65 <=? n) && (n <=? 90) then Some (n - 55)
  else None.

(** The longest prefix of digits of radix [R], read as a number; [acc] is
    [None] until a digit was seen. *)
Fixpoint parse_digits (R : Z) (s : string) (acc : option Z) : option Z :=
  match s with
  | EmptyString => acc
  | String c s' =>
      match digit_value c with
      | Some d =>
          if d <? R
          then parse_digits R s' (Some (default 0 acc * R + d))
          else acc
      | None => acc
      end
  end.

(** [parseInt(s)] with no radix argument: leading blanks are skipped, a
    sign is read, a [0x] or [0X] prefix selects radix 16, and the longest
    prefix of digits is the value; whatever follows is ignored. *)
Definition parseInt (s : string) : num :=
  let s1 := trimStart s in
  let '(sign, s2) :=
    match s1 with
    | String "-" r => (-1, r)
    | String "+" r => (1, r)
    | _ => (1, s1)
    end in
  let '(R, s3) :=
    match s2 with
    | String "0" (String "x" r) => (16, r)
    | String "0" (String "X" r) => (16, r)
    | _ => (10, s2)
    end in
  match parse_digits R s3 None with
  | None => NaN
  | Some v => Num (sign * v)
  end.

End Js.

(** ** Regular expressions of the source

    The regular expressions the code tests are transcribed as terms and run
    by derivatives. *)

Module Regex.

Inductive regex : Type :=
| RNone
| REps
| RSet (f : ascii -> bool)
| RSeq (r1 r2 : regex)
| RAlt (r1 r2 : regex)
| RStar (r : regex).

Fixpoint nullable (r : regex) : bool :=
  match r with
  | RNone => false
  | REps => true
  | RSet _ => false
  | RSeq a b => nullable a && nullable b
  | RAlt a b => nullable a || nullable b
  | RStar _ => true
  end.

Definition mk_seq (a b : regex) : regex :=
  match a with RNone => RNone | _ => RSeq a b end.

Definition mk_alt (a b : regex) : regex :=
  match a, b with
  | RNone, _ => b
  | _, RNone => a
  | _, _ => RAlt a b
  end.

Fixpoint deriv (c : ascii) (r : regex) : regex :=
  match r with
  | RNone => RNone
  | REps => RNone
  | RSet f => if f c then REps else RNone
  | RSeq a b =>
      if nullable a
      then mk_alt (mk_seq (deriv c a) b) (deriv c b)
      else mk_seq (deriv c a) b
  | RAlt a b => mk_alt (deriv c a) (deriv c b)
  | RStar a => mk_seq (deriv c a) (RStar a)
  end.

(** The whole string matches: [/^r$/]. *)
Fixpoint full (r : regex) (s : string) : bool :=
  match s with
  | EmptyString => nullable r
  | String c s' => full (deriv c r) s'
  end.

Definition anything : regex := RStar (RSet (fun _ => true)).

(** [r.test(s)] for a pattern without anchors: some substring matches. *)
Definition test (r : regex) (s : string) : bool :=
  full (RSeq anything (RSeq r anything)) s.

Definition chr (c : ascii) : regex := RSet (fun x => bool_decide (x = c)).

Fixpoint lit (s : string) : regex :=
  match s with
  | EmptyString => REps
  | String c s' => RSeq (chr c) (lit s')
  end.

Definition plus (r : regex) : regex := RSeq r (RStar r).

Definition one_of (cs : string) : regex :=
  RSet (fun x => Js.includes cs (String x EmptyString)).

(** [\w]: letters, digits and the underscore. *)
Definition word_char (c : ascii) : bool :=
  let n := nat_of_ascii c in
  ((48 <=? n) && (n <=? 57) || (65 <=? n) && (n <=? 90)
   || (97 <=? n) && (n <=? 122) || (n =? 95))%nat.

(** [.]: any character but a line terminator. *)
Definition dot : regex :=
  RSet (fun x => negb ((nat_of_ascii x =? 10) || (nat_of_ascii x =? 13))%nat).

Definition space : regex := RSet Js.is_ws.

(** [r.test(s)] for a pattern that starts with [^]: some prefix matches. *)
Definition test_prefix (r : regex) (s : string) : bool :=
  full (RSeq r anything) s.

(** The strings a pattern denotes; [full] decides it. *)
Inductive matches : regex -> string -> Prop :=
| MEps : matches REps EmptyString
| MSet f c : f c = true -> matches (RSet f) (String c EmptyString)
| MSeq a b s t : matches a s -> matches b t -> matches (RSeq a b) (s +:+ t)
| MAltL a b s : matches a s -> matches (RAlt a b) s
| MAltR a b s : matches b s -> matches (RAlt a b) s
| MStarNil a : matches (RStar a) EmptyString
| MStarApp a s t :
    matches a s -> matches (RStar a) t -> matches (RStar a) (s +:+ t).

End Regex.

(** ** [src/utils/validator.ts] *)

Module Validator.

Import Regex.

Record ValidationResult : Type := mkResult {
  valid : bool;
  errors : list string;
  sanitized : string
}.

Definition result_of (errs : list string) (san : string) : ValidationResult :=
  {| valid := bool_decide (length errs = 0%nat); errors := errs; sanitized := san |}.

(** [Validator.validateString(value, fieldName, maxLength = 256)].  The
    value is typed [string], so [!value] holds for the empty string only. *)
Definition validateString (value fieldName : string) (maxLength : nat)
  : ValidationResult :=
  let errs :=
    if bool_decide (value = EmptyString)
    then [fieldName +:+ " is required and must be a string"]
    else
      ((if (maxLength <? String.length value)%nat
        then [fieldName +:+ " is too long (max " +:+ pretty maxLength +:+ " characters)"]
        else [])
       ++
       (if (String.length (Js.trim value) =? 0)%nat
        then [fieldName +:+ " cannot be empty"]
        else []))%list in
  result_of errs (Js.trim value).

(** The [dangerousPatterns] of [validateCommand], each with its
    [pattern.source]. *)
Definition dangerousPatterns : list (regex * string) :=
  [ (one_of ";&|`$(){}[]", "[;&|`$(){}[\]]");
    (lit "..", "\.\.");
    (RSeq (lit "rm") (RSeq (plus space) (lit "-rf")), "rm\s+-rf");
    (lit "sudo", "sudo");
    (RSeq (lit "curl") (RSeq (RStar dot) (RSeq (lit "|") (RSeq (RStar dot) (lit "sh")))),
     "curl.*\|.*sh");
    (RSeq (lit "wget") (RSeq (RStar dot) (RSeq (lit "|") (RSeq (RStar dot) (lit "sh")))),
     "wget.*\|.*sh") ].

(** [Validator.validateCommand(command)]. *)
Definition validateCommand (command : string) : ValidationResult :=
  let errs :=
    if bool_decide (command = EmptyString)
    then ["Command is required and must be a string"]
    else
      (omap (fun '(r, source) =>
               if test r command
               then Some ("Command contains potentially dangerous pattern: " +:+ source)
               else None) dangerousPatterns
       ++
       (if (1000 <? String.length command)%nat
        then ["Command is too long (max 1000 characters)"]
        else []))%list in
  result_of errs (Js.trim command).

(** [/^[a-zA-Z0-9_-]+$/]. *)
Definition session_char (c : ascii) : bool :=
  word_char c || bool_decide (c = "-"%char).

(** [Validator.validateSessionName(name)]. *)
Definition validateSessionName (name : string) : ValidationResult :=
  let errs :=
    if bool_decide (name = EmptyString)
    then ["Session name is required and must be a string"]
    else
      ((if negb (full (plus (RSet session_char)) name)
        then ["Session name can only contain alphanumeric characters, underscores, and hyphens"]
        else [])
       ++
       (if (64 <? String.length name)%nat
        then ["Session name must be 64 characters or less"]
        else [])
       ++
       (if (String.length name <? 1)%nat
        then ["Session name cannot be empty"]
        else []))%list in
  result_of errs (Js.trim name).

(** [/^(file:|https?:|zellij:)/]. *)
Definition validProtocols : regex :=
  RAlt (lit "file:")
    (RAlt (RSeq (lit "http") (RSeq (RAlt (chr "s") REps) (lit ":")))
       (lit "zellij:")).

(** [/file:\/\/(\/tmp\/|\/home\/|\/usr\/share\/|\.\/)/]. *)
Definition allowedFileUrl : regex :=
  RSeq (lit "file://")
    (RAlt (lit "/tmp/") (RAlt (lit "/home/") (RAlt (lit "/usr/share/") (lit "./")))).

(** [Validator.validatePluginUrl(url)]. *)
Definition validatePluginUrl (url : string) : ValidationResult :=
  let errs :=
    if bool_decide (url = EmptyString)
    then ["Plugin URL is required and must be a string"]
    else
      ((if negb (test_prefix validProtocols url)
        then ["Plugin URL must use file:, http:, https:, or zellij: protocol"]
        else [])
       ++
       (if String.prefix "file:" url
        then
          (if Js.includes url ".."
           then ["Plugin file path cannot contain directory traversal (..)"]
           else [])
          ++
          (if negb (test allowedFileUrl url)
           then ["Plugin file path must be in allowed directories (/tmp, /home, /usr/share, or relative)"]
           else [])
        else []))%list in
  result_of errs (Js.trim url).

(** The three validators of an enumerated word share their shape: the
    lower-cased value must be in the list. *)
Definition validateEnum (what : string) (allowed : list string) (value : string)
  : ValidationResult :=
  let errs :=
    if bool_decide (value = EmptyString)
    then [what +:+ " is required and must be a string"]
    else if negb (Js.array_includes allowed (Js.toLowerCase value))
    then [what +:+ " must be one of: " +:+ Js.join ", " allowed]
    else [] in
  result_of errs (Js.toLowerCase value).

(** [Validator.validateDirection(direction)]. *)
Definition validateDirection (direction : string) : ValidationResult :=
  validateEnum "Direction" ["left"; "right"; "up"; "down"; "next"; "previous"]
    direction.

(** [Validator.validateSplitDirection(direction)]. *)
Definition validateSplitDirection (direction : string) : ValidationResult :=
  validateEnum "Split direction" ["right"; "down"] direction.

(** [Validator.validateResizeAmount(amount)]. *)
Definition validateResizeAmount (amount : string) : ValidationResult :=
  validateEnum "Resize amount" ["increase"; "decrease"] amount.

(** [/\x1b\[[0-9;]*[mGKH]/]. *)
Definition ansiEscape : regex :=
  RSeq (chr "027")
    (RSeq (chr "[")
       (RSeq (RStar (one_of "0123456789;")) (one_of "mGKH"))).

(** [Validator.validateText(text)]; the text is returned as it is. *)
Definition validateText (text : string) : ValidationResult :=
  let errs :=
    if bool_decide (text = EmptyString)
    then ["Text is required and must be a string"]
    else
      ((if 10000 <? Z.of_nat (String.length text)
        then ["Text is too long (max 10000 characters)"]
        else [])
       ++
       (if test ansiEscape text
        then ["Text contains ANSI escape sequences which may be dangerous"]
        else []))%list in
  result_of errs text.

(** An entry of [Validator.commandCounts]. *)
Record RateEntry : Type := mkRate {
  count : Z;
  resetTime : Z
}.

(** [Validator.checkRateLimit(identifier, maxRequests = 100, windowMs =
    60000)]; [now] is [Date.now()]. *)
Definition checkRateLimit (identifier : string) (maxRequests windowMs : option Z)
    (now : Z) (commandCounts : gmap string RateEntry)
  : gmap string RateEntry * bool :=
  let fresh := (<[identifier := mkRate 1 (now + default 60000 windowMs)]> commandCounts,
                true) in
  match commandCounts !! identifier with
  | None => fresh
  | Some existing =>
      if resetTime existing <? now then fresh
      else if default 100 maxRequests <=? count existing
      then (commandCounts, false)
      else (<[identifier := mkRate (count existing + 1) (resetTime existing)]>
              commandCounts,
            true)
  end.

End Validator.

(** ** [src/utils/cache.ts] *)

Module Cache.

Section Entries.

Context {V : Type}.

Record CacheEntry : Type := mkEntry {
  value : V;
  expiry : Z
}.

(** The [Map] of the cache, in insertion order. *)
Fixpoint map_get (key : string) (m : list (string * CacheEntry)) : option CacheEntry :=
  match m with
  | [] => None
  | (k, e) :: rest => if bool_decide (k = key) then Some e else map_get key rest
  end.

(** [Map.prototype.set]: a key that is present keeps its place. *)
Fixpoint map_set (key : string) (e : CacheEntry) (m : list (string * CacheEntry))
  : list (string * CacheEntry) :=
  match m with
  | [] => [(key, e)]
  | (k, e') :: rest =>
      if bool_decide (k = key) then (k, e) :: rest else (k, e') :: map_set key e rest
  end.

Definition map_delete (key : string) (m : list (string * CacheEntry))
  : list (string * CacheEntry) :=
  filter (fun kv => kv.1 <> key) m.

Definition defaultTTL : Z := 5000.

(** [ttlMs || this.defaultTTL]: the default stands in for a missing and
    for a zero [ttlMs]. *)
Definition effective_ttl (ttlMs : option Z) : Z :=
  match ttlMs with
  | Some t => if t =? 0 then defaultTTL else t
  | None => defaultTTL
  end.

(** [Cache.set(key, value, ttlMs)] at time [now]. *)
Definition set (key : string) (v : V) (ttlMs : option Z) (now : Z)
    (m : list (string * CacheEntry)) : list (string * CacheEntry) :=
  map_set key (mkEntry v (now + effective_ttl ttlMs)) m.

(** [Cache.get(key)] at time [now]: the value, or [null]; an entry found
    expired is deleted. *)
Definition get (key : string) (now : Z) (m : list (string * CacheEntry))
  : list (string * CacheEntry) * option V :=
  match map_get key m with
  | None => (m, None)
  | Some entry =>
      if expiry entry <? now then (map_delete key m, None)
      else (m, Some (value entry))
  end.

(** [Cache.has(key)] at time [now]. *)
Definition has (key : string) (now : Z) (m : list (string * CacheEntry))
  : list (string * CacheEntry) * bool :=
  match map_get key m with
  | None => (m, false)
  | Some entry =>
      if expiry entry <? now then (map_delete key m, false)
      else (m, true)
  end.

(** [Cache.delete(key)] and [Cache.clear()]. *)
Definition delete (key : string) (m : list (string * CacheEntry))
  : list (string * CacheEntry) :=
  map_delete key m.

Definition clear (m : list (string * CacheEntry)) : list (string * CacheEntry) := [].

(** [Cache.cleanup()] at time [now]. *)
Definition cleanup (now : Z) (m : list (string * CacheEntry))
  : list (string * CacheEntry) :=
  filter (fun kv => ~ (expiry kv.2 < now)) m.

(** [Cache.getStats()] at time [now]: the size and the keys after a
    cleanup. *)
Definition getStats (now : Z) (m : list (string * CacheEntry))
  : list (string * CacheEntry) * (nat * list string) :=
  let m' := cleanup now m in
  (m', (length m', m'.*1)).

End Entries.

Arguments CacheEntry : clear implicits.

End Cache.

(** ** Results of the tools *)

(** The exceptions of [src/types/zellij.ts] the detection tools meet. *)
Inductive JsError : Type :=
| ValidationError (message : string)
| ZellijError (message : string).

Definition error_message (e : JsError) : string :=
  match e with
  | ValidationError m => m
  | ZellijError m => m
  end.

(** A settled promise of a [ToolResponse]: resolved with the text of its
    single content item, or rejected. *)
Inductive Settled : Type :=
| Resolved (text : string)
| Rejected (e : JsError).

#[global] Instance JsError_eq_dec : EqDecision JsError.
Proof. solve_decision. Defined.

#[global] Instance Settled_eq_dec : EqDecision Settled.
Proof. solve_decision. Defined.

(** What an [async] tool hands back at once: it threw during validation
    (the promise is rejected, nothing was started), or it returned the
    promise of the watch closure numbered [id], or that of the
    [pipeWithTimeout] closure numbered [k]. *)
Inductive Call : Type :=
| Threw (e : JsError)
| Started (id : nat)
| StartedJob (k : nat).

(** ** [src/tools/detection.ts]: state *)

Module Detection.

Import Validator.

(** What [existsSync] and [readFileSync] find at a path: a node whose
    content can be read, or one that exists but makes the read throw. *)
Inductive FsNode : Type :=
| Readable (content : string)
| Unreadable.

Inductive Kind : Type :=
| FileWatch
| PipeWatch.

(** The closure of one [new Promise] executor of [watchFile] or
    [watchPipe]: the captured arguments, the locals [buffer] and [found],
    whether the [setTimeout] handle is still pending, whether the read
    stream still delivers events, and the promise itself. *)
Record Watch : Type := mkWatch {
  w_kind : Kind;
  w_path : string;
  w_patterns : list string;
  w_timeoutMs : Z;
  w_timer : bool;
  w_buffer : string;
  w_found : bool;
  w_stream : bool;
  w_promise : option Settled
}.

(** A [ChildProcess] of [pipeWithTimeout]. *)
Record ChildProcess : Type := mkChild {
  cp_command : string;
  cp_kill_throws : bool
}.

(** The closure of one [pipeWithTimeout] executor. *)
Record Job : Type := mkJob {
  j_processId : string;
  j_command : string;
  j_timeoutMs : Z;
  j_completed : bool;
  j_timer : bool;
  j_promise : option Settled
}.

(** - [watchers], [processes]: the static maps of [DetectionTools];
    - [stat_watchers]: the listeners [fs.watchFile] has installed, by
      path, each named by the watch whose closure it is;
    - [files]: the file system;
    - [watches], [jobs]: the closures created so far;
    - [killed]: the process ids that were sent [SIGTERM];
    - [exec_log]: the command lines handed to [execAsync] and [spawn]. *)
Record State : Type := mkState {
  watchers : gmap string bool;
  processes : gmap string ChildProcess;
  stat_watchers : gmap string (list nat);
  files : gmap string FsNode;
  watches : list Watch;
  jobs : list Job;
  killed : gset string;
  exec_log : list string
}.

Definition initial (fs : gmap string FsNode) : State :=
  mkState ∅ ∅ ∅ fs [] [] ∅ [].

Definition set_watchers (f : gmap string bool -> gmap string bool) (st : State) : State :=
  mkState (f (watchers st)) (processes st) (stat_watchers st) (files st)
          (watches st) (jobs st) (killed st) (exec_log st).

Definition set_processes (f : gmap string ChildProcess -> gmap string ChildProcess)
    (st : State) : State :=
  mkState (watchers st) (f (processes st)) (stat_watchers st) (files st)
          (watches st) (jobs st) (killed st) (exec_log st).

Definition set_stat_watchers (f : gmap string (list nat) -> gmap string (list nat))
    (st : State) : State :=
  mkState (watchers st) (processes st) (f (stat_watchers st)) (files st)
          (watches st) (jobs st) (killed st) (exec_log st).

Definition set_files (f : gmap string FsNode -> gmap string FsNode) (st : State) : State :=
  mkState (watchers st) (processes st) (stat_watchers st) (f (files st))
          (watches st) (jobs st) (killed st) (exec_log st).

Definition set_watches (f : list Watch -> list Watch) (st : State) : State :=
  mkState (watchers st) (processes st) (stat_watchers st) (files st)
          (f (watches st)) (jobs st) (killed st) (exec_log st).

Definition set_jobs (f : list Job -> list Job) (st : State) : State :=
  mkState (watchers st) (processes st) (stat_watchers st) (files st)
          (watches st) (f (jobs st)) (killed st) (exec_log st).

Definition set_killed (f : gset string -> gset string) (st : State) : State :=
  mkState (watchers st) (processes st) (stat_watchers st) (files st)
          (watches st) (jobs st) (f (killed st)) (exec_log st).

Definition log_exec (cmd : string) (st : State) : State :=
  mkState (watchers st) (processes st) (stat_watchers st) (files st)
          (watches st) (jobs st) (killed st) (exec_log st ++ [cmd]).

(** *** Promises and timers of a watch *)

(** [resolve(...)] and [reject(...)]: only the first call settles the
    promise, later ones do nothing. *)
Definition settle_watch (o : Settled) (w : Watch) : Watch :=
  match w_promise w with
  | Some _ => w
  | None =>
      mkWatch (w_kind w) (w_path w) (w_patterns w) (w_timeoutMs w) (w_timer w)
              (w_buffer w) (w_found w) (w_stream w) (Some o)
  end.

Definition clear_timer (w : Watch) : Watch :=
  mkWatch (w_kind w) (w_path w) (w_patterns w) (w_timeoutMs w) false
          (w_buffer w) (w_found w) (w_stream w) (w_promise w).

Definition set_buffer (b : string) (w : Watch) : Watch :=
  mkWatch (w_kind w) (w_path w) (w_patterns w) (w_timeoutMs w) (w_timer w)
          b (w_found w) (w_stream w) (w_promise w).

Definition set_found (w : Watch) : Watch :=
  mkWatch (w_kind w) (w_path w) (w_patterns w) (w_timeoutMs w) (w_timer w)
          (w_buffer w) true (w_stream w) (w_promise w).

Definition close_stream (w : Watch) : Watch :=
  mkWatch (w_kind w) (w_path w) (w_patterns w) (w_timeoutMs w) (w_timer w)
          (w_buffer w) (w_found w) false (w_promise w).

Definition upd_watch (id : nat) (f : Watch -> Watch) (st : State) : State :=
  set_watches (alter f id) st.

Definition resolve (id : nat) (text : string) (st : State) : State :=
  upd_watch id (settle_watch (Resolved text)) st.

Definition reject (id : nat) (e : JsError) (st : State) : State :=
  upd_watch id (settle_watch (Rejected e)) st.

(** What the caller awaiting the returned promise has received so far. *)
Definition outcome (st : State) (c : Call) : option Settled :=
  match c with
  | Threw e => Some (Rejected e)
  | Started id => watches st !! id ≫= w_promise
  | StartedJob k => jobs st !! k ≫= j_promise
  end.

(** [fs.watchFile(path, listener)] and [fs.unwatchFile(path)]; the latter,
    called without a listener, removes every listener of the path. *)
Definition fs_watchFile (path : string) (id : nat) (st : State) : State :=
  set_stat_watchers (fun m => <[path := default [] (m !! path) ++ [id]]> m) st.

Definition fs_unwatchFile (path : string) (st : State) : State :=
  set_stat_watchers (delete path) st.

(** The [cleanup] closure, the same in [watchFile] and [watchPipe]:
    [clearTimeout(timeout)], then, when the registry has the path,
    [unwatchFile] and [this.watchers.delete]. *)
Definition cleanup (id : nat) (st : State) : State :=
  match watches st !! id with
  | None => st
  | Some w =>
      let st1 := upd_watch id clear_timer st in
      if bool_decide (is_Some (watchers st1 !! w_path w))
      then set_watchers (delete (w_path w)) (fs_unwatchFile (w_path w) st1)
      else st1
  end.

(** [for (const pattern of validatedPatterns) if (text.includes(pattern))]:
    the pattern at which the loop returns. *)
Fixpoint scanPatterns (patterns : list string) (text : string) : option string :=
  match patterns with
  | [] => None
  | pattern :: rest =>
      if Js.includes text pattern then Some pattern else scanPatterns rest text
  end.

(** *** Validation shared by [watchFile], [watchPipe] and [pipeWithTimeout] *)

(** The class [[/\w\-\.]] of the path pattern. *)
Definition path_char (c : ascii) : bool :=
  Regex.word_char c || bool_decide (c = "/"%char) || bool_decide (c = "-"%char)
  || bool_decide (c = "."%char).

(** The negation of
    [!path || path.includes('..') || !path.match(/^[/\w\-\.]+$/)]. *)
Definition valid_path (path : string) : bool :=
  negb (bool_decide (path = EmptyString))
  && negb (Js.includes path "..")
  && Regex.full (Regex.plus (Regex.RSet path_char)) path.

(** The loop over [patterns]: it throws at the first pattern that
    [validateString] refuses and otherwise collects the sanitized
    patterns in order. *)
Fixpoint validatePatternList (patterns validated : list string)
  : JsError + list string :=
  match patterns with
  | [] => inr validated
  | pattern :: rest =>
      let v := validateString pattern "pattern" 256 in
      if valid v
      then validatePatternList rest (validated ++ [sanitized v])
      else inl (ValidationError ("Invalid pattern: " +:+ Js.join ", " (errors v)))
  end.

(** [patterns] is an optional argument. *)
Definition validatePatterns (patterns : option (list string)) : JsError + list string :=
  match patterns with
  | None => inr []
  | Some ps => validatePatternList ps []
  end.

(** *** [watchFile] *)

(** The texts [watchFile] resolves with. *)
Definition file_match_text (pattern filePath : string) : string :=
  "Pattern " +:+ Js.quoted pattern +:+ " found in file: " +:+ filePath.

Definition file_detected_text (filePath : string) : string :=
  "File detected: " +:+ filePath.

Definition file_timeout_text (timeoutMs : Z) (filePath : string) : string :=
  "File watch timeout after " +:+ pretty timeoutMs +:+ "ms: " +:+ filePath.

(** The [checkFile] closure of watch [id]. *)
Definition checkFile (id : nat) (st : State) : State :=
  match watches st !! id with
  | None => st
  | Some w =>
      match files st !! w_path w with
      | None => st
      | Some Unreadable => st
      | Some (Readable content) =>
          if (0 <? length (w_patterns w))%nat
          then
            match scanPatterns (w_patterns w) content with
            | Some pattern =>
                resolve id (file_match_text pattern (w_path w)) (cleanup id st)
            | None => st
            end
          else resolve id (file_detected_text (w_path w)) (cleanup id st)
      end
  end.

(** [DetectionTools.watchFile(filePath, patterns, timeoutMs = 30000)]: the
    validation, then the executor of the promise, which arms the timer,
    checks the file once, installs the [fs.watchFile] listener and only
    then records the path in [watchers].  The timeout is an integer: the
    guard of the source is a pair of comparisons, which a [NaN] passes, and
    such a call is outside this model. *)
Definition watchFile (filePath : string) (patterns : option (list string))
    (timeout : option Z) (st : State) : State * Call :=
  let timeoutMs := default 30000 timeout in
  if negb (valid_path filePath)
  then (st, Threw (ValidationError "Invalid file path"))
  else if (timeoutMs <? 100) || (300000 <? timeoutMs)
  then (st, Threw (ValidationError
                     "Timeout must be between 100ms and 300000ms (5 minutes)"))
  else
    match validatePatterns patterns with
    | inl e => (st, Threw e)
    | inr validatedPatterns =>
        let id := length (watches st) in
        let w := mkWatch FileWatch filePath validatedPatterns timeoutMs true
                         EmptyString false false None in
        let st1 := set_watches (fun l => l ++ [w]) st in
        let st2 := checkFile id st1 in
        let st3 := fs_watchFile filePath id st2 in
        let st4 := set_watchers (insert filePath true) st3 in
        (st4, Started id)
    end.

(** *** [watchPipe] *)

(** The texts and the error [watchPipe] settles with. *)
Definition pipe_match_text (pattern pipePath : string) : string :=
  "Pattern found: " +:+ Js.quoted pattern +:+ " in pipe " +:+ pipePath.

Definition eof_text (found : bool) (pipePath : string) : string :=
  if found
  then "EOF reached on pipe " +:+ pipePath +:+ " with pattern match"
  else "EOF reached on pipe " +:+ pipePath +:+ ". No patterns specified or found.".

Definition pipe_timeout_text (timeoutMs : Z) : string :=
  "Pipe watch timeout after " +:+ pretty timeoutMs
  +:+ "ms. No matching patterns found.".

Definition pipe_missing (pipePath : string) : JsError :=
  ValidationError ("Pipe does not exist: " +:+ pipePath).

(** [DetectionTools.watchPipe(pipePath, patterns, timeoutMs = 30000)].
    It never records the path in [watchers].  [createReadStream] reports
    its failures through the ['error'] event, so the [catch] of the
    executor is not reached.  As for [watchFile], the timeout is an
    integer. *)
Definition watchPipe (pipePath : string) (patterns : option (list string))
    (timeout : option Z) (st : State) : State * Call :=
  let timeoutMs := default 30000 timeout in
  if negb (valid_path pipePath)
  then (st, Threw (ValidationError "Invalid pipe path"))
  else if (timeoutMs <? 100) || (300000 <? timeoutMs)
  then (st, Threw (ValidationError
                     "Timeout must be between 100ms and 300000ms (5 minutes)"))
  else
    match validatePatterns patterns with
    | inl e => (st, Threw e)
    | inr validatedPatterns =>
        let id := length (watches st) in
        let w := mkWatch PipeWatch pipePath validatedPatterns timeoutMs true
                         EmptyString false false None in
        let st1 := set_watches (fun l => l ++ [w]) st in
        match files st1 !! pipePath with
        | None =>
            (reject id (pipe_missing pipePath) (cleanup id st1), Started id)
        | Some _ =>
            (upd_watch id
               (fun w => mkWatch (w_kind w) (w_path w) (w_patterns w) (w_timeoutMs w)
                                 (w_timer w) (w_buffer w) (w_found w) true (w_promise w))
               st1,
             Started id)
        end
    end.

(** The ['data'] handler of the stream of watch [id]. *)
Definition onData (id : nat) (chunk : string) (st : State) : State :=
  match watches st !! id with
  | None => st
  | Some w =>
      let buffer := w_buffer w +:+ chunk in
      let st1 := upd_watch id (set_buffer buffer) st in
      if (0 <? length (w_patterns w))%nat
      then
        match scanPatterns (w_patterns w) buffer with
        | Some pattern =>
            resolve id (pipe_match_text pattern (w_path w))
              (cleanup id (upd_watch id set_found st1))
        | None => st1
        end
      else st1
  end.

(** The ['end'] handler. *)
Definition onEnd (id : nat) (st : State) : State :=
  match watches st !! id with
  | None => st
  | Some w =>
      resolve id (eof_text (w_found w) (w_path w)) (cleanup id st)
  end.

(** The ['error'] handler. *)
Definition onError (id : nat) (message : string) (st : State) : State :=
  reject id (ValidationError ("Error reading pipe: " +:+ message)) (cleanup id st).

(** The [setTimeout] callback of watch [id]: that of [watchFile] or that of
    [watchPipe]. *)
Definition timeout_text (w : Watch) : string :=
  match w_kind w with
  | FileWatch => file_timeout_text (w_timeoutMs w) (w_path w)
  | PipeWatch => pipe_timeout_text (w_timeoutMs w)
  end.

Definition onTimeout (id : nat) (st : State) : State :=
  match watches st !! id with
  | None => st
  | Some w => resolve id (timeout_text w) (cleanup id st)
  end.

(** *** [pipeWithTimeout] *)

Definition settle_job (o : Settled) (j : Job) : Job :=
  match j_promise j with
  | Some _ => j
  | None =>
      mkJob (j_processId j) (j_command j) (j_timeoutMs j) (j_completed j)
            (j_timer j) (Some o)
  end.

Definition complete_job (j : Job) : Job :=
  mkJob (j_processId j) (j_command j) (j_timeoutMs j) true (j_timer j) (j_promise j).

Definition clear_job_timer (j : Job) : Job :=
  mkJob (j_processId j) (j_command j) (j_timeoutMs j) (j_completed j) false
        (j_promise j).

Definition upd_job (k : nat) (f : Job -> Job) (st : State) : State :=
  set_jobs (alter f k) st.

(** The [setTimeout] callback of job [k].  A [proc.kill] that throws
    leaves the callback before the process is forgotten and before
    [resolve]. *)
Definition onJobTimeout (k : nat) (st : State) : State :=
  match jobs st !! k with
  | None => st
  | Some j =>
      if j_completed j then st
      else
        let st1 := upd_job k complete_job st in
        let text := "Command piped with timeout completion after "
                    +:+ pretty (j_timeoutMs j) +:+ "ms: " +:+ j_command j in
        match processes st1 !! j_processId j with
        | Some proc =>
            if cp_kill_throws proc then st1
            else
              upd_job k (settle_job (Resolved text))
                (set_processes (delete (j_processId j))
                   (set_killed (fun s => {[ j_processId j ]} ∪ s) st1))
        | None => upd_job k (settle_job (Resolved text)) st1
        end
  end.

(** [`${code}`] for the [code] of an ['exit'] event, a number or [null]. *)
Definition exit_code_text (code : option Z) : string :=
  match code with
  | Some c => pretty c
  | None => "null"
  end.

(** The ['exit'] handler of the child of job [k]. *)
Definition onExit (k : nat) (code : option Z) (st : State) : State :=
  match jobs st !! k with
  | None => st
  | Some j =>
      if j_completed j then st
      else
        upd_job k (settle_job (Resolved ("Command completed with exit code "
                                         +:+ exit_code_text code +:+ ": "
                                         +:+ j_command j)))
          (set_processes (delete (j_processId j))
             (upd_job k clear_job_timer (upd_job k complete_job st)))
  end.

(** The ['error'] handler of the child of job [k]. *)
Definition onChildError (k : nat) (message : string) (st : State) : State :=
  match jobs st !! k with
  | None => st
  | Some j =>
      if j_completed j then st
      else
        upd_job k (settle_job (Rejected (ValidationError ("Command error: "
                                                          +:+ message))))
          (set_processes (delete (j_processId j))
             (upd_job k clear_job_timer (upd_job k complete_job st)))
  end.

(** *** The event loop *)

(** What the runtime can deliver between two tool calls.  [FileWritten]
    is a write that advances the modification time (a creation
    included); a removal does not advance it. *)
Inductive Event : Type :=
| TimerFires (id : nat)
| FileWritten (path content : string)
| FileRemoved (path : string)
| StreamData (id : nat) (chunk : string)
| StreamEnd (id : nat)
| StreamError (id : nat) (message : string)
| JobTimerFires (k : nat)
| ChildExit (k : nat) (code : option Z)
| ChildError (k : nat) (message : string).

(** A stream event reaches its handler while the stream of a pipe watch
    is open. *)
Definition stream_open (id : nat) (st : State) : bool :=
  match watches st !! id with
  | Some w => w_stream w
  | None => false
  end.

Definition step (ev : Event) (st : State) : State :=
  match ev with
  | TimerFires id =>
      match watches st !! id with
      | Some w => if w_timer w then onTimeout id st else st
      | None => st
      end
  | FileWritten path content =>
      let st1 := set_files (insert path (Readable content)) st in
      (* the listeners of the path, each running
         [if (curr.mtime > prev.mtime) checkFile()] *)
      foldl (fun s id => checkFile id s) st1
            (default [] (stat_watchers st1 !! path))
  | FileRemoved path => set_files (delete path) st
  | StreamData id chunk =>
      if stream_open id st then onData id chunk st else st
  | StreamEnd id =>
      if stream_open id st then upd_watch id close_stream (onEnd id st) else st
  | StreamError id message =>
      if stream_open id st
      then upd_watch id close_stream (onError id message st)
      else st
  | JobTimerFires k =>
      match jobs st !! k with
      | Some j => if j_timer j then upd_job k clear_job_timer (onJobTimeout k st) else st
      | None => st
      end
  | ChildExit k code => onExit k code st
  | ChildError k message => onChildError k message st
  end.

Definition run_events (evs : list Event) (st : State) : State :=
  foldl (fun s ev => step ev s) st evs.

(** *** Tools that run commands *)

(** What the operating system answers to a command line given to
    [child_process.exec]: its output, or a failure (a non-zero exit
    status, a timeout) with the message of the error. *)
Inductive ExecOutcome : Type :=
| ExecOk (stdout stderr : string)
| ExecFail (message : string).

Section Tools.

(** The operating system: [run] answers [exec], [spawn] answers
    [child_process.spawn('bash', ['-c', line])] with the child or with
    the message of the exception it throws. *)
Variable run : string -> ExecOutcome.
Variable spawn : string -> string + ChildProcess.

(** [execAsync] of [src/utils/command.ts]: both outputs trimmed, any
    failure rethrown as a [ZellijError]. *)
Definition execAsync (command : string) (st : State)
  : State * (JsError + string * string) :=
  (log_exec command st,
   match run command with
   | ExecOk out err => inr (Js.trim out, Js.trim err)
   | ExecFail m => inl (ZellijError ("Command execution failed: " +:+ m))
   end).

(** [/^0[0-7]{3}$/]. *)
Definition octal_digit (c : ascii) : bool :=
  let n := nat_of_ascii c in ((48 <=? n) && (n <=? 55))%nat.

Definition valid_mode (mode : string) : bool :=
  Regex.full
    (Regex.RSeq (Regex.chr "0")
       (Regex.RSeq (Regex.RSet octal_digit)
          (Regex.RSeq (Regex.RSet octal_digit) (Regex.RSet octal_digit))))
    mode.

(** The command line [createNamedPipe] builds. *)
Definition mkfifo_command (mode pipePath : string) : string :=
  "mkfifo -m " +:+ mode +:+ " " +:+ Js.quoted pipePath.

(** [DetectionTools.createNamedPipe(pipeName, mode = '0666')]. *)
Definition createNamedPipe (pipeName : string) (mode_arg : option string)
    (st : State) : State * Settled :=
  let mode := default "0666" mode_arg in
  let nameValidation := validateString pipeName "pipe name" 64 in
  if negb (valid nameValidation)
  then (st, Rejected (ValidationError ("Invalid pipe name: "
                                       +:+ Js.join ", " (errors nameValidation))))
  else if negb (valid_mode mode)
  then (st, Rejected (ValidationError
                        ("Mode must be in octal format (e.g., "
                         +:+ Js.quoted "0666" +:+ ")")))
  else
    let pipePath := "/tmp/zellij-pipe-" +:+ sanitized nameValidation in
    match execAsync (mkfifo_command mode pipePath) st with
    | (st1, inr (stdout, _)) =>
        (st1, Resolved ("Named pipe created: " +:+ pipePath +:+ " with mode "
                        +:+ mode
                        +:+ (if bool_decide (stdout = EmptyString) then EmptyString
                             else Js.nl +:+ "Output: " +:+ stdout)))
    | (st1, inl e) =>
        (st1, Rejected (ValidationError ("Failed to create named pipe: "
                                         +:+ error_message e)))
    end.

(** [DetectionTools.pipeWithTimeout(command, targetPipe, timeoutMs =
    30000)]; [processId] stands for the identifier the code draws from
    the clock and the random generator. *)
Definition pipeWithTimeout (command targetPipe : string) (timeout : option Z)
    (processId : string) (st : State) : State * Call :=
  let timeoutMs := default 30000 timeout in
  let cmdValidation := validateCommand command in
  if negb (valid cmdValidation)
  then (st, Threw (ValidationError ("Invalid command: "
                                    +:+ Js.join ", " (errors cmdValidation))))
  else if negb (valid_path targetPipe)
  then (st, Threw (ValidationError "Invalid target pipe path"))
  else if (timeoutMs <? 1000) || (600000 <? timeoutMs)
  then (st, Threw (ValidationError
                     "Timeout must be between 1000ms and 600000ms (10 minutes)"))
  else
    let k := length (jobs st) in
    let j := mkJob processId (sanitized cmdValidation) timeoutMs false true None in
    let st1 := set_jobs (fun l => l ++ [j]) st in
    let line := sanitized cmdValidation +:+ " > " +:+ Js.quoted targetPipe in
    let st2 := log_exec line st1 in
    match spawn line with
    | inr proc => (set_processes (insert processId proc) st2, StartedJob k)
    | inl message =>
        (upd_job k (settle_job (Rejected (ValidationError
                                            ("Failed to execute piped command: "
                                             +:+ message))))
           (upd_job k clear_job_timer (upd_job k complete_job st2)),
         StartedJob k)
    end.

(** [`${pidNum}`]. *)
Definition num_text (n : Js.num) : string :=
  match n with
  | Js.NaN => "NaN"
  | Js.Num z => pretty z
  end.

(** [isNaN(pidNum) || pidNum <= 0 || pidNum > 4194304]. *)
Definition invalid_pid (pidNum : Js.num) : bool :=
  match pidNum with
  | Js.NaN => true
  | Js.Num z => (z <=? 0) || (4194304 <? z)
  end.

Definition ps_command (pidNum : Js.num) : string :=
  "ps -p " +:+ num_text pidNum +:+ " -o pid,ppid,state,comm --no-headers".

(** The error and the texts of [pollProcess] for a process that is not
    there. *)
Definition invalid_pid_error : JsError :=
  ValidationError "Invalid PID: must be a positive integer".

Definition invalid_interval_error : JsError :=
  ValidationError "Interval must be between 100ms and 10000ms".

Definition exited_text (pidNum : Js.num) : string :=
  "Process " +:+ num_text pidNum +:+ " not found or has exited".

Definition not_found_text (pidNum : Js.num) (message : string) : string :=
  "Process " +:+ num_text pidNum +:+ " not found or error checking status: "
  +:+ message.

(** [typeof pid === 'string' ? parseInt(pid) : pid]. *)
Definition pid_number (pid : string + Js.num) : Js.num :=
  match pid with
  | inl s => Js.parseInt s
  | inr n => n
  end.

(** A destructured array element, [undefined] when the array is too
    short. *)
Definition field (l : list string) (i : nat) : string :=
  default "undefined" (l !! i).

(** [DetectionTools.pollProcess(pid, intervalMs = 1000)]; [pid] is a
    string or a number. *)
Definition pollProcess (pid : string + Js.num) (interval : option Z)
    (st : State) : State * Settled :=
  let intervalMs := default 1000 interval in
  let pidNum := pid_number pid in
  if invalid_pid pidNum
  then (st, Rejected invalid_pid_error)
  else if (intervalMs <? 100) || (10000 <? intervalMs)
  then (st, Rejected invalid_interval_error)
  else
    match execAsync (ps_command pidNum) st with
    | (st1, inr (stdout, _)) =>
        if bool_decide (Js.trim stdout = EmptyString)
        then (st1, Resolved (exited_text pidNum))
        else
          let fields := Js.split_ws (Js.trim stdout) in
          (st1, Resolved ("Process " +:+ num_text pidNum +:+ " status:" +:+ Js.nl
                          +:+ "PID: " +:+ field fields 0 +:+ Js.nl
                          +:+ "PPID: " +:+ field fields 1 +:+ Js.nl
                          +:+ "State: " +:+ field fields 2 +:+ Js.nl
                          +:+ "Command: " +:+ field fields 3))
    | (st1, inl e) =>
        (st1, Resolved (not_found_text pidNum (error_message e)))
    end.

(** The [find] command line of [cleanupDetection]. *)
Definition find_command : string :=
  "find /tmp -name " +:+ Js.quoted "llm-wrapper-*"
  +:+ " -o -name " +:+ Js.quoted "llm-status-*"
  +:+ " -o -name " +:+ Js.quoted "llm-output-*"
  +:+ " -o -name " +:+ Js.quoted "zellij-pipe-*"
  +:+ " -mtime +1 -delete 2>/dev/null || true".

(** The processes whose [kill('SIGTERM')] returns. *)
Definition killable (ps : gmap string ChildProcess) : gmap string ChildProcess :=
  filter (fun kv => cp_kill_throws kv.2 = false) ps.

(** [DetectionTools.cleanupDetection()]: [unwatchFile] on every path of
    [watchers] and [watchers.clear()], [kill] on every process and
    [processes.clear()], the [find] whose failure is ignored.  No
    closure of a watch is touched: no timer is cleared and no promise
    is settled. *)
Definition cleanupDetection (st : State) : State * Settled :=
  let cleaned := (size (watchers st) + size (killable (processes st)))%nat in
  let st1 :=
    set_stat_watchers (filter (fun kv => watchers st !! kv.1 = None)) st in
  let st2 := set_watchers (fun _ => ∅) st1 in
  let st3 := set_killed (fun s => dom (killable (processes st)) ∪ s) st2 in
  let st4 := set_processes (fun _ => ∅) st3 in
  let st5 := (execAsync find_command st4).1 in
  (st5, Resolved ("Detection cleanup completed. Stopped " +:+ pretty cleaned
                  +:+ " watchers/processes and cleaned temporary files.")).

End Tools.

(** *** [createLLMWrapper] and the script it writes *)

(** The text of an [echo] of the script: literal text, a shell variable,
    the command substitution [$(date -Iseconds)]. *)
Inductive Piece : Type :=
| Lit (s : string)
| Var (name : string)
| Date.

(** [>] replaces the content of the file, [>>] appends to it. *)
Inductive Redirect : Type :=
| Truncate
| Append.

(** [echo "<text>" > "$STATUS_FILE"] or [echo "<text>" >> "$STATUS_FILE"]. *)
Record StatusWrite : Type := mkWrite {
  sw_text : list Piece;
  sw_redirect : Redirect
}.

Definition piece_source (p : Piece) : string :=
  match p with
  | Lit s => s
  | Var name => "$" +:+ name
  | Date => "$(date -Iseconds)"
  end.

Definition text_source (t : list Piece) : string :=
  foldr (fun p acc => piece_source p +:+ acc) EmptyString t.

(** The line of the script for a status write. *)
Definition echo_line (indent : string) (w : StatusWrite) : string :=
  indent +:+ "echo " +:+ Js.quoted (text_source (sw_text w))
  +:+ match sw_redirect w with Truncate => " > " | Append => " >> " end
  +:+ Js.quoted "$STATUS_FILE".

(** The status writes of the script, by the place they stand at. *)
Definition init_writes : list StatusWrite :=
  [ mkWrite [Lit "running"] Truncate;
    mkWrite [Date; Lit ": Starting LLM query"] Append ].

Definition inner_timeout_writes : list StatusWrite :=
  [ mkWrite [Lit "timeout"] Append;
    mkWrite [Date; Lit ": LLM query timed out"] Append ].

Definition inner_error_writes : list StatusWrite :=
  [ mkWrite [Lit "error:"; Var "EXIT_CODE"] Append;
    mkWrite [Date; Lit ": LLM query failed with code "; Var "EXIT_CODE"] Append ].

Definition final_complete_writes : list StatusWrite :=
  [ mkWrite [Lit "complete:"; Var "LLM_EXIT_CODE"] Truncate;
    mkWrite [Date; Lit ": LLM query completed successfully"] Append ].

Definition final_error_writes : list StatusWrite :=
  [ mkWrite [Lit "error:"; Var "LLM_EXIT_CODE"] Truncate;
    mkWrite [Date; Lit ": LLM query failed with code "; Var "LLM_EXIT_CODE"] Append ].

(** The lines of [wrapperScript]. *)
Definition wrapper_lines (name statusPath marker command : string) (timeoutMs : Z)
  : list string :=
  [ "#!/bin/bash";
    "# LLM Completion Detection Wrapper";
    "# Generated by Zellij MCP Server";
    EmptyString;
    "set -euo pipefail";
    EmptyString;
    "WRAPPER_NAME=" +:+ Js.quoted name;
    "STATUS_FILE=" +:+ Js.quoted statusPath;
    "OUTPUT_FILE=" +:+ Js.quoted "/tmp/llm-output-$WRAPPER_NAME-$$";
    "MARKER=" +:+ Js.quoted marker;
    "TIMEOUT_MS=" +:+ Js.quoted (pretty timeoutMs);
    "LLM_PID=" +:+ Js.quoted EmptyString;
    EmptyString;
    "# Cleanup function";
    "cleanup() {";
    "    if [[ -n " +:+ Js.quoted "$LLM_PID" +:+ " ]] && kill -0 "
      +:+ Js.quoted "$LLM_PID" +:+ " 2>/dev/null; then";
    "        kill " +:+ Js.quoted "$LLM_PID" +:+ " 2>/dev/null || true";
    "        wait " +:+ Js.quoted "$LLM_PID" +:+ " 2>/dev/null || true";
    "    fi";
    "    [[ -f " +:+ Js.quoted "$OUTPUT_FILE" +:+ " ]] && rm -f "
      +:+ Js.quoted "$OUTPUT_FILE";
    "}";
    EmptyString;
    "# Set up signal handlers";
    "trap cleanup EXIT INT TERM";
    EmptyString;
    "# Initialize status" ]
  ++ map (echo_line EmptyString) init_writes
  ++ [ EmptyString;
       "# Start LLM process";
       "{";
       "    timeout $((TIMEOUT_MS / 1000))s " +:+ command +:+ " " +:+ Js.quoted "$@"
         +:+ " || {";
       "        EXIT_CODE=$?";
       "        if [[ $EXIT_CODE -eq 124 ]]; then" ]
  ++ map (echo_line "            ") inner_timeout_writes
  ++ [ "        else" ]
  ++ map (echo_line "            ") inner_error_writes
  ++ [ "        fi";
       "        exit $EXIT_CODE";
       "    }";
       "    echo " +:+ Js.quoted "$MARKER:$?";
       "} | tee " +:+ Js.quoted "$OUTPUT_FILE" +:+ " &";
       EmptyString;
       "LLM_PID=$!";
       EmptyString;
       "# Wait for completion";
       "wait " +:+ Js.quoted "$LLM_PID";
       "LLM_EXIT_CODE=$?";
       EmptyString;
       "# Update status";
       "if [[ $LLM_EXIT_CODE -eq 0 ]]; then" ]
  ++ map (echo_line "    ") final_complete_writes
  ++ [ "else" ]
  ++ map (echo_line "    ") final_error_writes
  ++ [ "fi";
       EmptyString;
       "# Output final result";
       "cat " +:+ Js.quoted "$OUTPUT_FILE";
       EmptyString;
       "exit $LLM_EXIT_CODE" ].

Definition wrapperScript (name statusPath marker command : string) (timeoutMs : Z)
  : string :=
  foldr (fun l acc => l +:+ Js.nl +:+ acc) EmptyString
        (wrapper_lines name statusPath marker command timeoutMs).

(** [DetectionTools.createLLMWrapper(wrapperName, llmCommand, detectMarker
    = '<<<LLM_COMPLETE>>>', timeoutMs = 60000)]; [write_error] is the
    message of the exception of [writeFileSync], if it throws. *)
Definition createLLMWrapper (wrapperName llmCommand : string)
    (detectMarker : option string) (timeout : option Z)
    (write_error : option string) (st : State) : State * Settled :=
  let timeoutMs := default 60000 timeout in
  let nameValidation := validateString wrapperName "wrapper name" 32 in
  let cmdValidation := validateCommand llmCommand in
  let markerValidation :=
    validateString (default "<<<LLM_COMPLETE>>>" detectMarker) "detection marker" 64 in
  if negb (valid nameValidation)
  then (st, Rejected (ValidationError ("Invalid wrapper name: "
                                       +:+ Js.join ", " (errors nameValidation))))
  else if negb (valid cmdValidation)
  then (st, Rejected (ValidationError ("Invalid LLM command: "
                                       +:+ Js.join ", " (errors cmdValidation))))
  else if negb (valid markerValidation)
  then (st, Rejected (ValidationError ("Invalid marker: "
                                       +:+ Js.join ", " (errors markerValidation))))
  else
    let wrapperPath := "/tmp/llm-wrapper-" +:+ sanitized nameValidation +:+ ".sh" in
    let statusPath := "/tmp/llm-status-" +:+ sanitized nameValidation in
    let script := wrapperScript (sanitized nameValidation) statusPath
                    (sanitized markerValidation) (sanitized cmdValidation) timeoutMs in
    match write_error with
    | Some message =>
        (st, Rejected (ValidationError ("Failed to create wrapper script: "
                                        +:+ message)))
    | None =>
        (set_files (insert wrapperPath (Readable script)) st,
         Resolved (Js.join Js.nl
           [ "LLM wrapper created: " +:+ wrapperPath;
             "Status file: " +:+ statusPath;
             "Detection marker: " +:+ sanitized markerValidation;
             "Timeout: " +:+ pretty timeoutMs +:+ "ms";
             EmptyString;
             "Usage: " +:+ wrapperPath +:+ " [your-llm-args...]";
             EmptyString;
             "The wrapper provides:";
             "- Multi-signal completion detection (exit code + marker + status file)";
             "- Automatic timeout handling";
             "- Process monitoring and cleanup";
             "- Timestamped status logging" ]))
    end.

(** *** What a run of the script does to the status file

    The content of the status file is the list of its lines; every [echo]
    writes one line. *)

Definition apply_write (content : list string) (line : string) (r : Redirect)
  : list string :=
  match r with
  | Truncate => [line]
  | Append => content ++ [line]
  end.

(** Expansion of the text of an [echo] by the shell; [date] is the output
    of [date -Iseconds] and [env] the value of the shell variables. *)
Definition expand (date : string) (env : string -> string) (t : list Piece) : string :=
  foldr (fun p acc =>
           match p with
           | Lit s => s
           | Var name => env name
           | Date => date
           end +:+ acc) EmptyString t.

Definition perform (date : string) (env : string -> string) (ws : list StatusWrite)
    (content : list string) : list string :=
  foldl (fun c w => apply_write c (expand date env (sw_text w)) (sw_redirect w))
        content ws.

Definition bind (name : string) (value : Z) (env : string -> string)
  : string -> string :=
  fun n => if bool_decide (n = name) then pretty value else env n.

Definition no_vars : string -> string := fun _ => EmptyString.

(** The status of the background pipeline [{ ... } | tee ... &] under
    [pipefail]: that of the last command of the pipeline that failed. *)
Definition pipeline_status (block_status tee_status : Z) : Z :=
  if tee_status =? 0 then block_status else tee_status.

(** A run of the script on a status file holding [content]:
    [cmd_status] is the exit status of [timeout ... <command>] (124 when
    the command outlives the wrapper's timeout), [tee_status] that of
    [tee].  The result is the final content of the status file and the
    exit status of the script.  Under [set -e] a non-zero status of
    [wait "$LLM_PID"] ends the script at that line.  This is the run of a
    script whose configuration lines assign the strings they show and
    whose writes succeed, around a command that leaves the status file
    alone: a name or a marker with [$], a quote or a backslash, and a
    command that redirects into the status file, are outside it. *)
Definition run_wrapper (date : string) (cmd_status tee_status : Z)
    (content : list string) : list string * Z :=
  let c1 := perform date no_vars init_writes content in
  let c2 :=
    if cmd_status =? 0 then c1
    else
      let env := bind "EXIT_CODE" cmd_status no_vars in
      if cmd_status =? 124
      then perform date env inner_timeout_writes c1
      else perform date env inner_error_writes c1 in
  let wait_status := pipeline_status cmd_status tee_status in
  if wait_status =? 0
  then
    let llm_exit_code := wait_status in
    let env := bind "LLM_EXIT_CODE" llm_exit_code no_vars in
    (perform date env
       (if llm_exit_code =? 0 then final_complete_writes else final_error_writes) c2,
     llm_exit_code)
  else (c2, wait_status).

(** The canonical value of the status file: its first line. *)
Definition canonical (content : list string) : option string := head content.

End Detection.

(** ** [src/tools/layouts.ts] *)

Module Layouts.

(** [x || d] for an optional string: the default stands in for a missing
    and for an empty one. *)
Definition or_else (x : option string) (d : string) : string :=
  match x with
  | Some (String c s) => String c s
  | _ => d
  end.

(** [String.prototype.endsWith]. *)
Fixpoint endsWith (s p : string) : bool :=
  bool_decide (s = p) ||
  match s with
  | EmptyString => false
  | String _ s' => endsWith s' p
  end.

Fixpoint slice_from (n : nat) (s : string) : string :=
  match n, s with
  | S n', String _ s' => slice_from n' s'
  | _, _ => s
  end.

(** [s.replace(p, '')]: the first occurrence of [p] is taken out. *)
Fixpoint remove_first (s p : string) : string :=
  if String.prefix p s then slice_from (String.length p) s
  else match s with
       | EmptyString => EmptyString
       | String c s' => String c (remove_first s' p)
       end.

(** The bullet of the listing, U+2022, in UTF-8. *)
Definition bullet : string :=
  String "226" (String "128" (String "162" EmptyString)).

Definition builtin : string :=
  Js.nl +:+ "Built-in layouts:" +:+ Js.nl
  +:+ "  " +:+ bullet +:+ " default - Standard single pane layout" +:+ Js.nl
  +:+ "  " +:+ bullet +:+ " strider - File browser layout" +:+ Js.nl
  +:+ "  " +:+ bullet +:+ " compact - Compact UI layout" +:+ Js.nl
  +:+ Js.nl +:+ "Note: You can also specify layout file paths directly".

Section Os.

(** The operating system.  [Fs] is the state of the file system;
    [readdirSync] answers with the entries of a directory or with the
    message of the error it throws; [mkdirSync] and [writeFileSync] answer
    with the new state and with the message of the error they throw, if
    any.  [run] answers [exec], [home] is [process.env.HOME] and [join] is
    [path.join]. *)
Variable Fs : Type.
Variable existsSync : Fs -> string -> bool.
Variable readdirSync : Fs -> string -> string + list string.
Variable mkdirSync : Fs -> string -> Fs * option string.
Variable writeFileSync : Fs -> string -> string -> Fs * option string.
Variable run : string -> Detection.ExecOutcome.
Variable home : option string.
Variable join : string -> string -> string.

(** The file system and the entries of the shared cache. *)
Record World : Type := mkWorld {
  fs : Fs;
  cache : list (string * Cache.CacheEntry string)
}.

(** [layoutsDir || join(process.env.HOME || '/tmp', '.config/zellij/layouts')]. *)
Definition layoutDirectory (layoutsDir : option string) : string :=
  or_else layoutsDir (join (or_else home "/tmp") ".config/zellij/layouts").

(** The key of [listLayouts] in the cache. *)
Definition cacheKey (layoutsDir : option string) : string :=
  "layouts_list_" +:+ or_else layoutsDir "default".

(** The part of the listing about the layouts directory, or the message
    of the error of [readdirSync]. *)
Definition custom_section (dir : string) (w : Fs) : string + string :=
  if existsSync w dir then
    match readdirSync w dir with
    | inl message => inl message
    | inr entries =>
        let files :=
          map (fun file => remove_first file ".kdl")
            (List.filter (fun file => endsWith file ".kdl") entries) in
        inr (match files with
             | [] => "No custom layouts found in " +:+ dir +:+ Js.nl
             | _ =>
                 "Custom layouts in " +:+ dir +:+ ":" +:+ Js.nl
                 +:+ String.concat EmptyString
                       (map (fun layout => "  " +:+ bullet +:+ " " +:+ layout +:+ Js.nl)
                          files)
             end)
    end
  else inr ("Layouts directory not found: " +:+ dir +:+ Js.nl).

(** [LayoutTools.listLayouts(layoutsDir)] at time [now]. *)
Definition listLayouts (layoutsDir : option string) (now : Z) (w : World)
  : World * Settled :=
  let key := cacheKey layoutsDir in
  let hit := Cache.get key now (cache w) in
  match hit.2 with
  | Some (String c s) => (mkWorld (fs w) hit.1, Resolved (String c s))
  | _ =>
      match custom_section (layoutDirectory layoutsDir) (fs w) with
      | inl message =>
          (mkWorld (fs w) hit.1,
           Rejected (ValidationError ("Failed to list layouts: " +:+ message)))
      | inr custom =>
          let output := "Available Layouts:" +:+ Js.nl +:+ Js.nl +:+ custom +:+ builtin in
          (mkWorld (fs w) (Cache.set key output (Some 30000) now hit.1),
           Resolved output)
      end
  end.

(** [LayoutTools.saveLayout(layoutName, layoutsDir)]. *)
Definition saveLayout (layoutName : string) (layoutsDir : option string) (w : World)
  : World * Settled :=
  let nameValidation := Validator.validateString layoutName "layout name" 64 in
  if negb (Validator.valid nameValidation)
  then (w, Rejected (ValidationError
                       ("Invalid layout name: "
                        +:+ Js.join ", " (Validator.errors nameValidation))))
  else
    let dir := layoutDirectory layoutsDir in
    let layoutPath := join dir (layoutName +:+ ".kdl") in
    if Js.includes dir ".."
    then (w, Rejected (ValidationError "Invalid layouts directory path"))
    else
      let failed (f : Fs) (message : string) :=
        (mkWorld f (cache w),
         Rejected (ValidationError ("Failed to save layout: " +:+ message))) in
      let made := if existsSync (fs w) dir then (fs w, None) else mkdirSync (fs w) dir in
      match made.2 with
      | Some message => failed made.1 message
      | None =>
          match run "zellij action dump-layout" with
          | Detection.ExecFail m =>
              failed made.1 ("Command execution failed: " +:+ m)
          | Detection.ExecOk out _ =>
              let written := writeFileSync made.1 layoutPath (Js.trim out) in
              match written.2 with
              | Some message => failed written.1 message
              | None =>
                  (mkWorld written.1 (Cache.delete "layouts_list" (cache w)),
                   Resolved ("Layout saved: " +:+ layoutName +:+ Js.nl
                             +:+ "Path: " +:+ layoutPath))
              end
          end
      end.

End Os.

Arguments mkWorld {Fs}.
Arguments fs {Fs}.
Arguments cache {Fs}.

End Layouts.

(** * Statements

    The notions the properties below are stated with, and the sample
    environments their instances use. *)

Import Detection.

(** An operating system that answers every command with empty output. *)
Definition quiet_os : string -> ExecOutcome :=
  fun _ => ExecOk EmptyString EmptyString.

(** A watch in flight: its promise is pending and the registry has its
    path. *)
Definition in_flight (st : State) (id : nat) : Prop :=
  exists w, watches st !! id = Some w /\ w_promise w = None
            /\ is_Some (watchers st !! w_path w).

(** C2 as the specification states it: the sweep settles the in-flight
    watch with an error and its path leaves the registry. *)
Definition sweep_cancels (run : string -> ExecOutcome) (st : State) (id : nat) : Prop :=
  in_flight st id ->
  let st' := (cleanupDetection run st).1 in
  (exists e, outcome st' (Started id) = Some (Rejected e)) /\
  (forall w, watches st !! id = Some w -> watchers st' !! w_path w = None).

(** [p], at index [i] of the request list [ps], is the first pattern of
    the list whose form [f p] occurs in [text]. *)
Definition first_present (f : string -> string) (ps : list string) (text : string)
    (i : nat) (p : string) : Prop :=
  ps !! i = Some p /\
  Js.includes text (f p) = true /\
  forall j q, (j < i)%nat -> ps !! j = Some q -> Js.includes text (f q) = false.


(** C4 as the specification states it, for a pipe watch: a pending watch
    without patterns whose stream is open resolves when a chunk arrives. *)
Definition chunk_resolves (st : State) (id : nat) (chunk : string) : Prop :=
  (exists w, watches st !! id = Some w /\ w_kind w = PipeWatch /\ w_patterns w = []
             /\ w_promise w = None /\ w_stream w = true) ->
  exists text, outcome (step (StreamData id chunk) st) (Started id)
               = Some (Resolved text).

(** What a check of a file watch with the validated patterns [vps] reports
    on a readable file that holds [content], if it reports. *)
Definition check_result (vps : list string) (filePath content : string)
  : option string :=
  if (0 <? length vps)%nat
  then (fun pattern => file_match_text pattern filePath) <$> scanPatterns vps content
  else Some (file_detected_text filePath).

(** C5 as the specification states it: a file watch on a path that does not
    exist fails at start. *)
Definition missing_file_fails (filePath : string) (patterns : option (list string))
    (timeout : option Z) (st : State) : Prop :=
  files st !! filePath = None ->
  let r := watchFile filePath patterns timeout st in
  exists e, outcome r.1 r.2 = Some (Rejected e).

(** A [spawn] that always succeeds. *)
Definition spawning_os : string -> string + ChildProcess :=
  fun line => inr (mkChild line false).

(** C8 as the specification states it, in its last part: for a valid
    identifier the query does not raise. *)
Definition valid_pid_never_raises (run : string -> ExecOutcome)
    (pid : string + Js.num) (interval : option Z) (st : State) : Prop :=
  invalid_pid (pid_number pid) = false ->
  exists text, (pollProcess run pid interval st).2 = Resolved text.



(** Every character of [s] is a decimal digit. *)
Definition all_digits (s : string) : bool :=
  forallb (fun c => match Js.digit_value c with
                    | Some d => d <? 10
                    | None => false
                    end) (list_ascii_of_string s).

(** ** Vocabulary of the further properties *)

(** The characters [validateCommand] refuses anywhere in a command. *)
Definition shell_meta : string := ";&|`$(){}[]".

(** The states the server can be in: from an empty registry, any sequence
    of tool calls and of events of the event loop, on any operating
    system. *)
Inductive reachable : State -> Prop :=
| reach_initial fs : reachable (initial fs)
| reach_step ev st : reachable st -> reachable (step ev st)
| reach_watchFile path patterns timeout st :
    reachable st -> reachable (watchFile path patterns timeout st).1
| reach_watchPipe path patterns timeout st :
    reachable st -> reachable (watchPipe path patterns timeout st).1
| reach_pipeWithTimeout spawn command targetPipe timeout processId st :
    reachable st ->
    reachable (pipeWithTimeout spawn command targetPipe timeout processId st).1
| reach_createNamedPipe run pipeName mode st :
    reachable st -> reachable (createNamedPipe run pipeName mode st).1
| reach_pollProcess run pid interval st :
    reachable st -> reachable (pollProcess run pid interval st).1
| reach_createLLMWrapper wrapperName llmCommand detectMarker timeout write_error st :
    reachable st ->
    reachable (createLLMWrapper wrapperName llmCommand detectMarker timeout
                 write_error st).1
| reach_cleanupDetection run st :
    reachable st -> reachable (cleanupDetection run st).1.

(** A closure whose promise is settled has no timer pending; the closure
    of a piped command has then also set its [completed] flag. *)
Definition watch_quiet (w : Watch) : Prop :=
  is_Some (w_promise w) -> w_timer w = false.

Definition job_quiet (j : Job) : Prop :=
  (is_Some (j_promise j) -> j_completed j = true) /\
  (j_completed j = true -> j_timer j = false).

Definition quiet (st : State) : Prop :=
  Forall watch_quiet (watches st) /\ Forall job_quiet (jobs st).

(** The texts [pipeWithTimeout] resolves with. *)
Definition job_exit_text (code : option Z) (command : string) : string :=
  "Command completed with exit code " +:+ exit_code_text code +:+ ": " +:+ command.

Definition job_timeout_text (timeoutMs : Z) (command : string) : string :=
  "Command piped with timeout completion after " +:+ pretty timeoutMs +:+ "ms: "
  +:+ command.

(** The line [pipeWithTimeout] hands to [bash -c]. *)
Definition piped_line (command targetPipe : string) : string :=
  Js.trim command +:+ " > " +:+ Js.quoted targetPipe.

(** The answers of [checkRateLimit] to calls for one identifier made at the
    times [ts], in order, and the table after them. *)
Fixpoint rate_calls (identifier : string) (maxRequests windowMs : option Z)
    (ts : list Z) (m : gmap string Validator.RateEntry)
  : gmap string Validator.RateEntry * list bool :=
  match ts with
  | [] => (m, [])
  | t :: ts' =>
      let r := Validator.checkRateLimit identifier maxRequests windowMs t m in
      let rs := rate_calls identifier maxRequests windowMs ts' r.1 in
      (rs.1, r.2 :: rs.2)
  end.

(** A control sequence as [validateText] looks for it: ESC, an opening
    bracket, any number of digits and semicolons, and one of the letters
    [m], [G], [K], [H]. *)
Definition csi_sequence (s : string) : Prop :=
  exists params final,
    s = String "027" (String "[" (params +:+ String final EmptyString)) /\
    (forall c, In c (list_ascii_of_string params) ->
               In c (list_ascii_of_string "0123456789;")) /\
    In final (list_ascii_of_string "mGKH").

(** * Properties *)

(** ** The closures and the registry under [cleanup] *)

Section Closures.

Implicit Types (st : State) (id : nat) (w : Watch).

Lemma lookup_new_watch (l : list Watch) w : (l ++ [w]) !! length l = Some w.
Proof. by apply list_lookup_middle. Qed.

Lemma alter_missing {A} (f : A -> A) (l : list A) (i : nat) :
  l !! i = None -> alter f i l = l.
Proof.
  intros H. apply list_eq. intros j. destruct (decide (i = j)) as [->|].
  - by rewrite list_lookup_alter_eq, H.
  - by rewrite list_lookup_alter_ne.
Qed.

Lemma watches_upd_watch id f st :
  watches (upd_watch id f st) = alter f id (watches st).
Proof. reflexivity. Qed.

Lemma watches_cleanup id st :
  watches (cleanup id st) = alter clear_timer id (watches st).
Proof.
  unfold cleanup. destruct (watches st !! id) as [w|] eqn:Hw.
  - by case_bool_decide.
  - symmetry. by apply alter_missing.
Qed.

Lemma files_cleanup id st : files (cleanup id st) = files st.
Proof.
  unfold cleanup. destruct (watches st !! id); [|done].
  by case_bool_decide.
Qed.

(** After [cleanup] the registry has no entry for the path of the watch
    and no listener is installed on it, if there was an entry. *)
Lemma watchers_cleanup id st w :
  watches st !! id = Some w -> watchers (cleanup id st) !! w_path w = None.
Proof.
  intros Hw. unfold cleanup. rewrite Hw. case_bool_decide as Hreg; simpl.
  - apply lookup_delete_eq.
  - simpl in Hreg. by apply eq_None_not_Some.
Qed.

Lemma stat_watchers_cleanup id st w :
  watches st !! id = Some w ->
  is_Some (watchers st !! w_path w) ->
  stat_watchers (cleanup id st) !! w_path w = None.
Proof.
  intros Hw Hreg. unfold cleanup. rewrite Hw.
  rewrite bool_decide_eq_true_2 by done. simpl. apply lookup_delete_eq.
Qed.

Lemma outcome_settle id o (l : list Watch) w :
  l !! id = Some w -> w_promise w = None ->
  alter (settle_watch o) id l !! id ≫= w_promise = Some o.
Proof.
  intros Hw Hp. rewrite list_lookup_alter_eq, Hw. simpl.
  unfold settle_watch. by rewrite Hp.
Qed.

(** A handler that runs [cleanup] and [resolve] on a pending watch delivers
    the text to its caller. *)
Lemma outcome_resolve_cleanup st id w text :
  watches st !! id = Some w -> w_promise w = None ->
  outcome (resolve id text (cleanup id st)) (Started id) = Some (Resolved text).
Proof.
  intros Hw Hp. unfold outcome, resolve.
  rewrite watches_upd_watch, watches_cleanup.
  apply outcome_settle with (w := clear_timer w); [|done].
  by rewrite list_lookup_alter_eq, Hw.
Qed.

Lemma outcome_reject_cleanup st id w e :
  watches st !! id = Some w -> w_promise w = None ->
  outcome (reject id e (cleanup id st)) (Started id) = Some (Rejected e).
Proof.
  intros Hw Hp. unfold outcome, reject.
  rewrite watches_upd_watch, watches_cleanup.
  apply outcome_settle with (w := clear_timer w); [|done].
  by rewrite list_lookup_alter_eq, Hw.
Qed.

(** Updates of a closure that leave its promise alone do not change what
    any caller has received. *)
Lemma outcome_upd_watch id id' (f : Watch -> Watch) st :
  (forall w, w_promise (f w) = w_promise w) ->
  outcome (upd_watch id f st) (Started id') = outcome st (Started id').
Proof.
  intros Hf. unfold outcome. rewrite watches_upd_watch.
  destruct (decide (id = id')) as [->|Hne].
  - rewrite list_lookup_alter_eq. destruct (watches st !! id'); simpl; [apply Hf|done].
  - by rewrite list_lookup_alter_ne.
Qed.

Lemma scanPatterns_nonempty (ps : list string) (text p : string) :
  scanPatterns ps text = Some p -> (0 <? length ps)%nat = true.
Proof. by destruct ps. Qed.

End Closures.

(** ** Leak freedom of a watch (C1) *)

(** The other resolutions of a watch do unregister first: the timeout
    callback runs [cleanup], after which the registry has no entry for the
    path and no listener is installed on it, and only then [resolve]. *)
Lemma timeout_unregisters_before_resolving (st : State) (id : nat) (w : Watch) :
  watches st !! id = Some w ->
  w_timer w = true ->
  is_Some (watchers st !! w_path w) ->
  step (TimerFires id) st = resolve id (timeout_text w) (cleanup id st) /\
  watchers (cleanup id st) !! w_path w = None /\
  stat_watchers (cleanup id st) !! w_path w = None.
Proof.
  intros Hw Ht Hreg. split; [|split].
  - unfold step, onTimeout. by rewrite Hw, Ht.
  - by apply watchers_cleanup with (id := id).
  - by apply stat_watchers_cleanup with (id := id).
Qed.

(** C1, at the immediate check.  A file watch that resolves during the
    check [watchFile] makes at start runs [cleanup] before anything is
    registered, and the executor goes on to install the [fs.watchFile]
    listener and to record the path in [watchers]: when the caller has its
    outcome, the registry entry and the listener of that watch are both
    present, and the timer that could have removed them is cleared, so the
    deadline changes nothing. *)
Theorem watchFile_immediate_resolve_leaves_entry
    (st : State) (filePath : string) (patterns : option (list string))
    (timeout : option Z) (validatedPatterns : list string) (content : string) :
  valid_path filePath = true ->
  100 <= default 30000 timeout <= 300000 ->
  validatePatterns patterns = inr validatedPatterns ->
  files st !! filePath = Some (Readable content) ->
  validatedPatterns = [] \/ is_Some (scanPatterns validatedPatterns content) ->
  let id := length (watches st) in
  let st' := (watchFile filePath patterns timeout st).1 in
  (watchFile filePath patterns timeout st).2 = Started id /\
  (exists text, outcome st' (Started id) = Some (Resolved text)) /\
  watchers st' !! filePath = Some true /\
  id ∈ default [] (stat_watchers st' !! filePath) /\
  (exists w, watches st' !! id = Some w /\ w_timer w = false) /\
  step (TimerFires id) st' = st'.
Proof.
  intros Hpath Ht Hpat Hfile Hmatch id st'.
  subst st'. unfold watchFile. rewrite Hpath, Hpat. simpl negb. cbv iota.
  replace ((default 30000 timeout <? 100) || (300000 <? default 30000 timeout))
    with false by (symmetry; apply orb_false_intro; lia).
  cbv iota. fold id.
  set (w := mkWatch FileWatch filePath validatedPatterns (default 30000 timeout)
                    true EmptyString false false None).
  set (st1 := set_watches (fun l => l ++ [w]) st).
  assert (Hw : watches st1 !! id = Some w) by apply lookup_new_watch.
  assert (Hchk : exists text,
             checkFile id st1 = resolve id text (cleanup id st1)).
  { unfold checkFile. rewrite Hw. simpl. rewrite Hfile.
    destruct Hmatch as [-> | [p Hp]]; [by eexists|].
    rewrite (scanPatterns_nonempty _ _ _ Hp), Hp. by eexists. }
  destruct Hchk as [text Hchk]. simpl. rewrite Hchk.
  assert (Hid : watches (resolve id text (cleanup id st1)) !! id
                = Some (settle_watch (Resolved text) (clear_timer w))).
  { unfold resolve. rewrite watches_upd_watch, watches_cleanup.
    by rewrite !list_lookup_alter_eq, Hw. }
  split; [done|]. split; [|split; [|split; [|split]]].
  - exists text. by rewrite Hid.
  - apply lookup_insert_eq.
  - rewrite lookup_insert_eq. simpl.
    apply elem_of_app. right. by apply list_elem_of_singleton.
  - eexists. split; [exact Hid|done].
  - unfold step.
    change (watches (set_watchers _ (fs_watchFile _ _ ?s))) with (watches s).
    by rewrite Hid.
Qed.

Lemma watchFile_immediate_resolve_leaves_entry_witness :
  let st := initial {[ "/tmp/llm-status-w" := Readable "complete:0" ]} in
  let st' := (watchFile "/tmp/llm-status-w" (Some ["complete:"]) (Some 1000) st).1 in
  (watchFile "/tmp/llm-status-w" (Some ["complete:"]) (Some 1000) st).2 = Started 0 /\
  (exists text, outcome st' (Started 0) = Some (Resolved text)) /\
  watchers st' !! "/tmp/llm-status-w" = Some true /\
  0%nat ∈ default [] (stat_watchers st' !! "/tmp/llm-status-w") /\
  (exists w, watches st' !! 0%nat = Some w /\ w_timer w = false) /\
  step (TimerFires 0) st' = st'.
Proof.
  apply (watchFile_immediate_resolve_leaves_entry
           (initial {[ "/tmp/llm-status-w" := Readable "complete:0" ]})
           "/tmp/llm-status-w" (Some ["complete:"]) (Some 1000)
           ["complete:"] "complete:0").
  - reflexivity.
  - simpl. lia.
  - reflexivity.
  - reflexivity.
  - right. by eexists.
Defined.

(** ** The registry sweep (C2) *)

Section Sweep.

Variable run : string -> ExecOutcome.
Implicit Types (st : State) (id : nat) (w : Watch).

Lemma watches_cleanupDetection st :
  watches (cleanupDetection run st).1 = watches st.
Proof. reflexivity. Qed.

Lemma watchers_cleanupDetection st :
  watchers (cleanupDetection run st).1 = ∅.
Proof. reflexivity. Qed.

Lemma stat_watchers_cleanupDetection st (path : string) :
  stat_watchers (cleanupDetection run st).1 !! path =
  if bool_decide (watchers st !! path = None) then stat_watchers st !! path else None.
Proof.
  simpl. case_bool_decide as Hreg.
  - destruct (stat_watchers st !! path) as [l|] eqn:Hl.
    + by apply map_lookup_filter_Some.
    + apply map_lookup_filter_None. left. done.
  - apply map_lookup_filter_None. right. intros l _. done.
Qed.

Lemma onTimeout_outcome st id w :
  watches st !! id = Some w -> w_promise w = None ->
  outcome (onTimeout id st) (Started id) = Some (Resolved (timeout_text w)).
Proof.
  intros Hw Hp. unfold onTimeout. rewrite Hw.
  by apply outcome_resolve_cleanup with (w := w).
Qed.

End Sweep.

(** C2, counterexample.  A file watch waits for a status file that does not
    exist yet; the sweep runs; the caller of the watch has received nothing,
    in particular no error. *)
Lemma sweep_delivers_no_outcome :
  let st := (watchFile "/tmp/llm-status-w" (Some ["complete:"]) (Some 1000)
               (initial ∅)).1 in
  ~ sweep_cancels quiet_os st 0.
Proof.
  intros st Hclaim.
  destruct Hclaim as [[e He] _].
  - exists (mkWatch FileWatch "/tmp/llm-status-w" ["complete:"] 1000 true
                    EmptyString false false None).
    split; [reflexivity|]. split; [reflexivity|]. by eexists.
  - vm_compute in He. discriminate He.
Qed.

(** C2, amended.  For a watch that is in flight when [cleanupDetection]
    runs, the sweep removes the registry entry and the installed listener
    of its path and delivers nothing to the caller: the closure is left as
    it was, its promise pending and its timer armed, and the caller gets
    the outcome of the watch's own timeout when that timer fires. *)
Theorem cleanupDetection_unregisters_without_settling
    (run : string -> ExecOutcome) (st : State) (id : nat) (w : Watch) :
  watches st !! id = Some w ->
  w_promise w = None ->
  w_timer w = true ->
  is_Some (watchers st !! w_path w) ->
  let st' := (cleanupDetection run st).1 in
  watchers st' !! w_path w = None /\
  stat_watchers st' !! w_path w = None /\
  watches st' !! id = Some w /\
  outcome st' (Started id) = None /\
  outcome (step (TimerFires id) st') (Started id)
  = Some (Resolved (timeout_text w)).
Proof.
  intros Hw Hp Ht Hreg st'. subst st'.
  split; [by rewrite watchers_cleanupDetection|].
  split.
  { rewrite stat_watchers_cleanupDetection.
    rewrite bool_decide_eq_false_2; [done|].
    intros Hnone. rewrite Hnone in Hreg. by destruct Hreg. }
  split; [by rewrite watches_cleanupDetection|].
  split.
  { unfold outcome. rewrite watches_cleanupDetection, Hw. exact Hp. }
  unfold step. rewrite watches_cleanupDetection, Hw, Ht.
  apply onTimeout_outcome; [by rewrite watches_cleanupDetection|done].
Qed.

Lemma cleanupDetection_unregisters_without_settling_witness :
  let st := (watchFile "/tmp/llm-status-w" (Some ["complete:"]) (Some 1000)
               (initial ∅)).1 in
  let w := mkWatch FileWatch "/tmp/llm-status-w" ["complete:"] 1000 true
                   EmptyString false false None in
  let st' := (cleanupDetection quiet_os st).1 in
  watchers st' !! w_path w = None /\
  stat_watchers st' !! w_path w = None /\
  watches st' !! 0%nat = Some w /\
  outcome st' (Started 0) = None /\
  outcome (step (TimerFires 0) st') (Started 0)
  = Some (Resolved (timeout_text w)).
Proof.
  intros st w.
  apply (cleanupDetection_unregisters_without_settling quiet_os st 0 w).
  - reflexivity.
  - reflexivity.
  - reflexivity.
  - by eexists.
Defined.

(** ** Which pattern is reported (C3) *)

Section Scan.

Implicit Types (ps vps acc : list string) (text p : string).




Lemma scanPatterns_found (f : string -> string) ps text r :
  scanPatterns (map f ps) text = Some r ->
  exists i p, first_present f ps text i p /\ r = f p.
Proof.
  induction ps as [|q ps IH]; simpl; [done|].
  destruct (Js.includes text (f q)) eqn:Hq.
  - intros [= <-]. exists 0%nat, q. split; [|done].
    split; [done|]. split; [done|]. intros j ? Hj. lia.
  - intros H. destruct (IH H) as (i & p & (Hi & Hin & Hbefore) & ->).
    exists (S i), p. split; [|done].
    split; [done|]. split; [done|].
    intros [|j] r Hj Hr; simpl in Hr.
    + by inversion Hr; subst.
    + apply (Hbefore j); [lia|done].
Qed.

End Scan.




(** ** A watch without patterns (C4) *)

(** C4, counterexample.  A pipe watch without patterns receives a chunk and
    is still pending. *)
Lemma chunk_without_patterns_leaves_pipe_watch_pending :
  let st := (watchPipe "/tmp/zellij-pipe-p" (Some []) (Some 1000)
               (initial {[ "/tmp/zellij-pipe-p" := Readable EmptyString ]})).1 in
  ~ chunk_resolves st 0 "processing".
Proof.
  intros st Hclaim. destruct Hclaim as [text Htext].
  - eexists. split; [reflexivity|]. repeat split.
  - vm_compute in Htext. discriminate Htext.
Qed.

(** C4, amended.  For a watch without patterns: on a pipe, a chunk only
    extends the buffer and the watch stays pending, and it is the end of
    the stream that resolves it, with the end-of-stream text; on a file,
    every check that finds the file readable resolves it, with the
    file-detected text. *)
Theorem watch_without_patterns
    (st : State) (id : nat) (w : Watch) :
  watches st !! id = Some w ->
  w_patterns w = [] ->
  w_promise w = None ->
  (w_stream w = true ->
   forall chunk,
     let st1 := step (StreamData id chunk) st in
     watches st1 !! id = Some (set_buffer (w_buffer w +:+ chunk) w) /\
     outcome st1 (Started id) = None /\
     outcome (step (StreamEnd id) st1) (Started id)
     = Some (Resolved (eof_text (w_found w) (w_path w))) /\
     outcome (step (StreamEnd id) st) (Started id)
     = Some (Resolved (eof_text (w_found w) (w_path w)))) /\
  (forall content,
     files st !! w_path w = Some (Readable content) ->
     outcome (checkFile id st) (Started id)
     = Some (Resolved (file_detected_text (w_path w)))).
Proof.
  intros Hw Hpat Hp. split.
  - intros Hstream chunk st1.
    assert (Hst1 : st1 = upd_watch id (set_buffer (w_buffer w +:+ chunk)) st).
    { subst st1. unfold step, stream_open. rewrite Hw, Hstream.
      unfold onData. by rewrite Hw, Hpat. }
    assert (Hw1 : watches st1 !! id = Some (set_buffer (w_buffer w +:+ chunk) w)).
    { by rewrite Hst1, watches_upd_watch, list_lookup_alter_eq, Hw. }
    split; [exact Hw1|]. split; [|split].
    + unfold outcome. by rewrite Hw1.
    + unfold step, stream_open. rewrite Hw1. cbn [set_buffer w_stream].
      rewrite Hstream, outcome_upd_watch by done.
      unfold onEnd. rewrite Hw1.
      by apply outcome_resolve_cleanup
        with (w := set_buffer (w_buffer w +:+ chunk) w).
    + unfold step, stream_open. rewrite Hw, Hstream.
      rewrite outcome_upd_watch by done.
      unfold onEnd. rewrite Hw.
      by apply outcome_resolve_cleanup with (w := w).
  - intros content Hfile. unfold checkFile. rewrite Hw, Hfile, Hpat. simpl.
    by apply outcome_resolve_cleanup with (w := w).
Qed.

Lemma watch_without_patterns_witness :
  (let st := (watchPipe "/tmp/zellij-pipe-p" (Some []) (Some 1000)
                (initial {[ "/tmp/zellij-pipe-p" := Readable EmptyString ]})).1 in
   let st1 := step (StreamData 0 "processing") st in
   outcome st1 (Started 0) = None /\
   outcome (step (StreamEnd 0) st1) (Started 0)
   = Some (Resolved (eof_text false "/tmp/zellij-pipe-p"))) /\
  (let st := (watchFile "/tmp/llm-status-w" (Some []) (Some 1000) (initial ∅)).1 in
   let st1 := set_files (insert "/tmp/llm-status-w" (Readable "running")) st in
   outcome (checkFile 0 st1) (Started 0)
   = Some (Resolved (file_detected_text "/tmp/llm-status-w"))).
Proof.
  split.
  - intros st st1.
    destruct (proj1 (watch_without_patterns st 0
                       (mkWatch PipeWatch "/tmp/zellij-pipe-p" [] 1000 true
                                EmptyString false true None)
                       eq_refl eq_refl eq_refl) eq_refl "processing")
      as (_ & Hpending & Hend & _).
    split; [exact Hpending|exact Hend].
  - intros st st1.
    apply (proj2 (watch_without_patterns st1 0
                    (mkWatch FileWatch "/tmp/llm-status-w" [] 1000 true
                             EmptyString false false None)
                    eq_refl eq_refl eq_refl) "running").
    reflexivity.
Defined.

(** ** A file watch on a path that does not exist (C5) *)

Section Listeners.

Implicit Types (st : State) (id : nat) (w : Watch).

Lemma checkFile_outcome st id w content text :
  watches st !! id = Some w -> w_promise w = None ->
  files st !! w_path w = Some (Readable content) ->
  check_result (w_patterns w) (w_path w) content = Some text ->
  outcome (checkFile id st) (Started id) = Some (Resolved text).
Proof.
  intros Hw Hp Hfile Hres. unfold checkFile. rewrite Hw, Hfile.
  unfold check_result in Hres.
  destruct (0 <? length (w_patterns w))%nat.
  - destruct (scanPatterns (w_patterns w) content) as [pattern|]; [|done].
    inversion Hres; subst. by apply outcome_resolve_cleanup with (w := w).
  - inversion Hres; subst. by apply outcome_resolve_cleanup with (w := w).
Qed.

(** A check either leaves the state alone or runs [cleanup] and [resolve]. *)
Lemma checkFile_cases id st :
  checkFile id st = st \/
  exists text, checkFile id st = resolve id text (cleanup id st).
Proof.
  unfold checkFile. destruct (watches st !! id) as [w|]; [|by left].
  destruct (files st !! w_path w) as [[content|]|]; [|by left|by left].
  destruct (0 <? length (w_patterns w))%nat; [|right; by eexists].
  destruct (scanPatterns (w_patterns w) content); [right; by eexists|by left].
Qed.

Lemma files_checkFile id st : files (checkFile id st) = files st.
Proof.
  destruct (checkFile_cases id st) as [->|[text ->]]; [done|].
  unfold resolve. simpl. apply files_cleanup.
Qed.

(** The check of one watch does not touch the closure of another. *)
Lemma watches_checkFile_other id id' st :
  id' <> id -> watches (checkFile id' st) !! id = watches st !! id.
Proof.
  intros Hne. destruct (checkFile_cases id' st) as [->|[text ->]]; [done|].
  unfold resolve. rewrite watches_upd_watch, watches_cleanup.
  by rewrite !list_lookup_alter_ne.
Qed.

(** A promise that is settled stays as it is under any check. *)
Lemma checkFile_keeps_settled id id' st o :
  outcome st (Started id) = Some o ->
  outcome (checkFile id' st) (Started id) = Some o.
Proof.
  intros Ho. destruct (decide (id' = id)) as [->|Hne].
  - destruct (checkFile_cases id st) as [->|[text ->]]; [done|].
    unfold outcome, resolve in *. rewrite watches_upd_watch, watches_cleanup.
    rewrite !list_lookup_alter_eq.
    destruct (watches st !! id) as [w|]; [|done]. simpl in *.
    unfold settle_watch. simpl. by rewrite Ho.
  - unfold outcome in *. by rewrite watches_checkFile_other.
Qed.

Lemma listeners_keep_settled (l : list nat) id st o :
  outcome st (Started id) = Some o ->
  outcome (foldl (fun s i => checkFile i s) st l) (Started id) = Some o.
Proof.
  revert st. induction l as [|i l IH]; intros st Ho; [done|].
  simpl. apply IH. by apply checkFile_keeps_settled.
Qed.

(** When the listeners of a path run after a write, a pending watch among
    them whose check reports is resolved with that report, whatever the
    other listeners do. *)
Lemma listeners_resolve (l : list nat) id st w content text :
  id ∈ l ->
  watches st !! id = Some w -> w_promise w = None ->
  files st !! w_path w = Some (Readable content) ->
  check_result (w_patterns w) (w_path w) content = Some text ->
  outcome (foldl (fun s i => checkFile i s) st l) (Started id)
  = Some (Resolved text).
Proof.
  revert st. induction l as [|i l IH]; intros st Hin Hw Hp Hfile Hres.
  - by apply elem_of_nil in Hin.
  - simpl. destruct (decide (i = id)) as [->|Hne].
    + apply listeners_keep_settled. by apply checkFile_outcome with (w := w) (content := content).
    + apply IH; [|by rewrite watches_checkFile_other|done| |done].
      * apply elem_of_cons in Hin. by destruct Hin as [->|].
      * by rewrite files_checkFile.
Qed.

End Listeners.

(** C5, counterexample.  A file watch started on a status file that does
    not exist yet has delivered nothing: it is pending. *)
Lemma watchFile_of_missing_file_is_pending :
  ~ missing_file_fails "/tmp/llm-status-w" (Some ["complete:"]) (Some 1000)
      (initial ∅).
Proof.
  intros Hclaim. destruct Hclaim as [e He]; [reflexivity|].
  vm_compute in He. discriminate He.
Qed.

(** C5, amended.  A valid file watch on a path that does not exist does not
    fail and creates nothing: it is started, registered with its listener
    installed and its timer armed, its promise pending, and it resolves as
    soon as the file is written with a content its check reports.  The watch
    that is rejected at start when its target does not exist is the pipe
    watch. *)
Theorem watch_of_missing_target
    (st : State) (path : string) (patterns : option (list string))
    (timeout : option Z) (vps : list string) :
  valid_path path = true ->
  100 <= default 30000 timeout <= 300000 ->
  validatePatterns patterns = inr vps ->
  files st !! path = None ->
  let id := length (watches st) in
  let f := watchFile path patterns timeout st in
  let p := watchPipe path patterns timeout st in
  (f.2 = Started id /\
   outcome f.1 f.2 = None /\
   files f.1 = files st /\
   watchers f.1 !! path = Some true /\
   id ∈ default [] (stat_watchers f.1 !! path) /\
   (exists w, watches f.1 !! id = Some w /\ w_timer w = true) /\
   (forall content text,
       check_result vps path content = Some text ->
       outcome (step (FileWritten path content) f.1) f.2 = Some (Resolved text))) /\
  (p.2 = Started id /\
   outcome p.1 p.2 = Some (Rejected (pipe_missing path)) /\
   files p.1 = files st).
Proof.
  intros Hpath Ht Hpat Hfile id f p.
  assert (Hbounds : ((default 30000 timeout <? 100)
                     || (300000 <? default 30000 timeout)) = false)
    by (apply orb_false_intro; lia).
  split.
  - subst f. unfold watchFile. rewrite Hpath, Hpat, Hbounds. simpl negb. cbv iota.
    fold id.
    set (w := mkWatch FileWatch path vps (default 30000 timeout) true
                      EmptyString false false None).
    set (st1 := set_watches (fun l => l ++ [w]) st).
    assert (Hw : watches st1 !! id = Some w) by apply lookup_new_watch.
    assert (Hchk : checkFile id st1 = st1).
    { unfold checkFile. rewrite Hw. simpl. by rewrite Hfile. }
    rewrite Hchk. cbn [fst snd].
    split; [done|]. split; [|split; [done|split; [|split; [|split]]]].
    + change (watches st1 !! id ≫= w_promise = None). by rewrite Hw.
    + apply lookup_insert_eq.
    + simpl. rewrite lookup_insert_eq. simpl.
      apply elem_of_app. right. by apply list_elem_of_singleton.
    + exists w. by split.
    + intros content text Hres. unfold step.
      match goal with
      | |- outcome (foldl _ ?s ?l) _ = _ =>
          apply (listeners_resolve l id s w content text)
      end.
      * simpl. rewrite lookup_insert_eq. simpl.
        apply elem_of_app. right. by apply list_elem_of_singleton.
      * exact Hw.
      * done.
      * simpl. apply lookup_insert_eq.
      * exact Hres.
  - subst p. unfold watchPipe. rewrite Hpath, Hpat, Hbounds. simpl negb. cbv iota.
    fold id.
    set (w := mkWatch PipeWatch path vps (default 30000 timeout) true
                      EmptyString false false None).
    set (st1 := set_watches (fun l => l ++ [w]) st).
    assert (Hw : watches st1 !! id = Some w) by apply lookup_new_watch.
    replace (files st1 !! path) with (files st !! path) by done.
    rewrite Hfile. cbn [fst snd].
    split; [done|]. split.
    + by apply outcome_reject_cleanup with (w := w).
    + unfold reject. simpl. by rewrite files_cleanup.
Qed.

Lemma watch_of_missing_target_witness :
  let f := watchFile "/tmp/llm-status-w" (Some ["complete:"]) (Some 1000) (initial ∅) in
  let p := watchPipe "/tmp/llm-status-w" (Some ["complete:"]) (Some 1000) (initial ∅) in
  outcome f.1 f.2 = None /\
  watchers f.1 !! "/tmp/llm-status-w" = Some true /\
  outcome (step (FileWritten "/tmp/llm-status-w" "complete:0") f.1) f.2
  = Some (Resolved (file_match_text "complete:" "/tmp/llm-status-w")) /\
  outcome p.1 p.2 = Some (Rejected (pipe_missing "/tmp/llm-status-w")).
Proof.
  intros f p.
  destruct (watch_of_missing_target (initial ∅) "/tmp/llm-status-w"
              (Some ["complete:"]) (Some 1000) ["complete:"])
    as [(_ & Hpending & _ & Hreg & _ & _ & Hlater) (_ & Hpipe & _)].
  - reflexivity.
  - simpl. lia.
  - reflexivity.
  - reflexivity.
  - split; [exact Hpending|]. split; [exact Hreg|]. split; [|exact Hpipe].
    apply Hlater. reflexivity.
Defined.

(** ** The status file of the generated wrapper (C6) *)

(** The script [createLLMWrapper] writes for a valid request. *)
Lemma createLLMWrapper_writes_script
    (wrapperName llmCommand : string) (detectMarker : option string)
    (timeout : option Z) (st : State) :
  let marker := default "<<<LLM_COMPLETE>>>" detectMarker in
  Validator.valid (Validator.validateString wrapperName "wrapper name" 32) = true ->
  Validator.valid (Validator.validateCommand llmCommand) = true ->
  Validator.valid (Validator.validateString marker "detection marker" 64) = true ->
  files (createLLMWrapper wrapperName llmCommand detectMarker timeout None st).1
    !! ("/tmp/llm-wrapper-" +:+ Js.trim wrapperName +:+ ".sh")
  = Some (Readable (wrapperScript (Js.trim wrapperName)
                      ("/tmp/llm-status-" +:+ Js.trim wrapperName)
                      (Js.trim marker) (Js.trim llmCommand)
                      (default 60000 timeout))).
Proof.
  intros marker Hname Hcmd Hmarker. unfold createLLMWrapper.
  fold marker. rewrite Hname, Hcmd, Hmarker. simpl. apply lookup_insert_eq.
Qed.

(** The natural exit with status 0 replaces the content of the status file:
    its first line becomes [complete:0]. *)
Lemma wrapper_success_status (date : string) (content : list string) :
  run_wrapper date 0 0 content
  = (["complete:0"; date +:+ ": LLM query completed successfully"], 0).
Proof. reflexivity. Qed.

(** C6, on the code.  Every script the generator produces writes [running]
    with [>] at start and writes [timeout] with [>>]; so on a run whose
    wrapped command outlives the wrapper's timeout ([timeout] exits with
    124) the status file ends as the two lines of the start followed by
    [timeout] and its log line: the line [timeout] is appended, the first
    line is still [running], and the script stops at [wait] without any
    further status write. *)
Theorem wrapper_timeout_status
    (name statusPath marker command : string) (timeoutMs : Z)
    (date : string) (tee_status : Z) (content : list string) :
  let lines := wrapper_lines name statusPath marker command timeoutMs in
  let r := run_wrapper date 124 tee_status content in
  echo_line EmptyString (mkWrite [Lit "running"] Truncate) ∈ lines /\
  echo_line "            " (mkWrite [Lit "timeout"] Append) ∈ lines /\
  canonical (perform date no_vars init_writes content) = Some "running" /\
  r.1 = [ "running"; date +:+ ": Starting LLM query";
          "timeout"; date +:+ ": LLM query timed out" ] /\
  canonical r.1 = Some "running" /\
  canonical r.1 <> Some "timeout" /\
  r.2 <> 0.
Proof.
  intros lines r.
  split; [|split].
  - subst lines. unfold wrapper_lines. rewrite !elem_of_app. right. left.
    simpl. apply list_elem_of_here.
  - subst lines. unfold wrapper_lines. rewrite !elem_of_app. do 3 right. left.
    simpl. apply list_elem_of_here.
  - assert (Hr : r = ([ "running"; date +:+ ": Starting LLM query";
                        "timeout"; date +:+ ": LLM query timed out" ],
                      pipeline_status 124 tee_status)).
    { subst r. unfold run_wrapper.
      assert (Hwait : (pipeline_status 124 tee_status =? 0) = false).
      { unfold pipeline_status. destruct (tee_status =? 0) eqn:Htee; [done|].
        exact Htee. }
      rewrite Hwait. reflexivity. }
    rewrite Hr. simpl. repeat split; try done.
    unfold pipeline_status. destruct (tee_status =? 0) eqn:Htee; lia.
Qed.

(** ** Bounds on the timeouts (C7) *)

(** C7.  A watch, on a file or on a pipe, whose timeout is below 100 ms or
    above 300000 ms is rejected with a [ValidationError] and leaves the
    state as it was: no closure, no timer, no stream, no registry entry.
    [pipeWithTimeout] does the same for a timeout below 1000 ms or above
    600000 ms: nothing is spawned. *)
Theorem timeout_out_of_bounds_is_rejected
    (spawn : string -> string + ChildProcess) (st : State)
    (path : string) (patterns : option (list string))
    (command targetPipe processId : string) (t t' : Z) :
  t < 100 \/ 300000 < t ->
  t' < 1000 \/ 600000 < t' ->
  (exists message,
      watchFile path patterns (Some t) st = (st, Threw (ValidationError message))) /\
  (exists message,
      watchPipe path patterns (Some t) st = (st, Threw (ValidationError message))) /\
  (exists message,
      pipeWithTimeout spawn command targetPipe (Some t') processId st
      = (st, Threw (ValidationError message))).
Proof.
  intros Ht Ht'.
  assert (Hb : ((t <? 100) || (300000 <? t)) = true).
  { apply orb_true_iff. destruct Ht; [left|right]; lia. }
  assert (Hb' : ((t' <? 1000) || (600000 <? t')) = true).
  { apply orb_true_iff. destruct Ht'; [left|right]; lia. }
  split; [|split].
  - unfold watchFile. simpl default. rewrite Hb.
    destruct (valid_path path); simpl; by eexists.
  - unfold watchPipe. simpl default. rewrite Hb.
    destruct (valid_path path); simpl; by eexists.
  - unfold pipeWithTimeout. simpl default. rewrite Hb'.
    destruct (Validator.valid (Validator.validateCommand command));
      simpl; [|by eexists].
    destruct (valid_path targetPipe); simpl; by eexists.
Qed.

Lemma timeout_out_of_bounds_is_rejected_witness :
  let st := initial {[ "/tmp/zellij-pipe-p" := Readable EmptyString ]} in
  (exists message,
      watchFile "/tmp/llm-status-w" (Some ["complete:"]) (Some 99) st
      = (st, Threw (ValidationError message))) /\
  (exists message,
      watchPipe "/tmp/zellij-pipe-p" (Some ["DONE"]) (Some 99) st
      = (st, Threw (ValidationError message))) /\
  (exists message,
      pipeWithTimeout spawning_os "sleep 1" "/tmp/zellij-pipe-p" (Some 600001)
        "pipe-1-abc" st
      = (st, Threw (ValidationError message))).
Proof.
  intros st.
  destruct (timeout_out_of_bounds_is_rejected spawning_os st "/tmp/llm-status-w"
              (Some ["complete:"]) "sleep 1" "/tmp/zellij-pipe-p" "pipe-1-abc"
              99 600001) as (Hfile & _ & Hjob); [lia|lia|].
  destruct (timeout_out_of_bounds_is_rejected spawning_os st "/tmp/zellij-pipe-p"
              (Some ["DONE"]) "sleep 1" "/tmp/zellij-pipe-p" "pipe-1-abc"
              99 600001) as (_ & Hpipe & _); [lia|lia|].
  split; [exact Hfile|]. split; [exact Hpipe|exact Hjob].
Defined.

(** ** The process-status query (C8) *)

(** C8, counterexample.  The identifier 1 is valid; with an interval hint
    of 50 ms the query raises a validation error. *)
Lemma pollProcess_raises_on_interval :
  ~ valid_pid_never_raises quiet_os (inr (Js.Num 1)) (Some 50) (initial ∅).
Proof.
  intros Hclaim. destruct Hclaim as [text Htext]; [reflexivity|].
  vm_compute in Htext. discriminate Htext.
Qed.

(** C8, amended.  The identifier is the number the code reads
    ([pid_number]): a number as given, a string through [parseInt], which
    reads a numeric prefix.  An identifier that is not positive or above
    4194304 (or for which that reading gives no number at all) is rejected
    with the invalid-identifier error before anything is run.  For an
    identifier within range and an interval hint within 100 to 10000 ms the
    query runs [ps] once and returns normally, whatever [ps] answers: when
    [ps] fails or prints nothing, the result is a not-found text.  With an
    interval hint out of those bounds the query raises, also for an
    identifier within range, before the probe. *)
Theorem pollProcess_outcomes
    (run : string -> ExecOutcome) (pid : string + Js.num) (interval : option Z)
    (st : State) :
  let pidNum := pid_number pid in
  (pidNum = Js.NaN \/ (exists z, pidNum = Js.Num z /\ (z <= 0 \/ 4194304 < z)) ->
   pollProcess run pid interval st = (st, Rejected invalid_pid_error)) /\
  (forall z,
      pidNum = Js.Num z -> 0 < z <= 4194304 ->
      (100 <= default 1000 interval <= 10000 ->
       exists text,
         pollProcess run pid interval st
         = (log_exec (ps_command pidNum) st, Resolved text) /\
         (forall message,
             run (ps_command pidNum) = ExecFail message ->
             text = not_found_text pidNum ("Command execution failed: " +:+ message)) /\
         (forall out err,
             run (ps_command pidNum) = ExecOk out err ->
             Js.trim (Js.trim out) = EmptyString ->
             text = exited_text pidNum)) /\
      (default 1000 interval < 100 \/ 10000 < default 1000 interval ->
       pollProcess run pid interval st = (st, Rejected invalid_interval_error))).
Proof.
  intros pidNum. split.
  - intros Hbad. unfold pollProcess. fold pidNum.
    replace (invalid_pid pidNum) with true; [done|].
    destruct Hbad as [->|(z & -> & Hz)]; [done|]. simpl. symmetry.
    apply orb_true_iff. destruct Hz; [left|right]; lia.
  - intros z Hnum Hz.
    assert (Hvalid : invalid_pid pidNum = false).
    { rewrite Hnum. simpl. apply orb_false_intro; lia. }
    split.
    + intros Hint. unfold pollProcess. fold pidNum. rewrite Hvalid.
      replace ((default 1000 interval <? 100) || (10000 <? default 1000 interval))
        with false by (symmetry; apply orb_false_intro; lia).
      unfold execAsync.
      destruct (run (ps_command pidNum)) as [out err|message] eqn:Hrun.
      * case_bool_decide as Hempty; eexists; (split; [reflexivity|]);
          (split; [intros m [=]|]); intros out' err' [= <- <-] Hout; done.
      * eexists. split; [reflexivity|]. split.
        -- by intros m [= <-].
        -- intros out err [=].
    + intros Hint. unfold pollProcess. fold pidNum. rewrite Hvalid.
      replace ((default 1000 interval <? 100) || (10000 <? default 1000 interval))
        with true; [done|].
      symmetry. apply orb_true_iff. destruct Hint; [left|right]; lia.
Qed.

Lemma pollProcess_outcomes_witness :
  let st := initial ∅ in
  let gone := fun _ : string => ExecFail "exit code 1" in
  pollProcess gone (inr (Js.Num 0)) None st = (st, Rejected invalid_pid_error) /\
  pollProcess gone (inl "4194305") None st = (st, Rejected invalid_pid_error) /\
  pollProcess gone (inr (Js.Num 4242)) (Some 1000) st
  = (log_exec "ps -p 4242 -o pid,ppid,state,comm --no-headers" st,
     Resolved (not_found_text (Js.Num 4242)
                 "Command execution failed: exit code 1")) /\
  pollProcess gone (inr (Js.Num 4242)) (Some 50) st
  = (st, Rejected invalid_interval_error).
Proof.
  intros st gone.
  split; [|split; [|split]].
  - apply (proj1 (pollProcess_outcomes gone (inr (Js.Num 0)) None st)).
    right. exists 0. split; [reflexivity|lia].
  - apply (proj1 (pollProcess_outcomes gone (inl "4194305") None st)).
    right. exists 4194305. split; [reflexivity|lia].
  - destruct (proj1 (proj2 (pollProcess_outcomes gone (inr (Js.Num 4242))
                              (Some 1000) st) 4242 eq_refl ltac:(lia))
                ltac:(simpl; lia))
      as (text & Hcall & Hfail & _).
    rewrite Hcall. by rewrite (Hfail "exit code 1" eq_refl).
  - apply (proj2 (proj2 (pollProcess_outcomes gone (inr (Js.Num 4242))
                           (Some 50) st) 4242 eq_refl ltac:(lia))).
    left. simpl. lia.
Defined.

(** ** The name of a created pipe (C9) *)




(** ** Identifiers given as strings (C10) *)

(** C10.  [pollProcess] reads a string identifier with [parseInt]: the
    string ["123abc"], which is not a number, is read as 123, passes the
    validation, and the query is the one for process 123. *)
Theorem pollProcess_parses_numeric_prefix :
  exists s : string,
    all_digits s = false /\
    Js.parseInt s = Js.Num 123 /\
    invalid_pid (pid_number (inl s)) = false /\
    forall (run : string -> ExecOutcome) (st : State),
      pollProcess run (inl s) None st = pollProcess run (inr (Js.Num 123)) None st /\
      exec_log (pollProcess run (inl s) None st).1
      = exec_log st ++ ["ps -p 123 -o pid,ppid,state,comm --no-headers"] /\
      exists text, (pollProcess run (inl s) None st).2 = Resolved text.
Proof.
  exists "123abc".
  split; [reflexivity|]. split; [reflexivity|]. split; [reflexivity|].
  intros run st. split; [reflexivity|].
  unfold pollProcess.
  change (pid_number (inl "123abc")) with (Js.Num 123).
  change (invalid_pid (Js.Num 123)) with false.
  cbn [default orb Z.ltb Z.compare Pos.compare Pos.compare_cont].
  unfold execAsync.
  destruct (run _) as [out err|message].
  - case_bool_decide; (split; [reflexivity|by eexists]).
  - split; [reflexivity|]. by eexists.
Qed.

(** * Further properties *)

(** ** Strings and patterns *)

Section Strings.

Implicit Types (s t u : string) (c : ascii).

Lemma string_app_nil_l s : EmptyString +:+ s = s.
Proof. reflexivity. Qed.

Lemma string_app_cons c s t : String c s +:+ t = String c (s +:+ t).
Proof. reflexivity. Qed.

Lemma string_app_nil_r s : s +:+ EmptyString = s.
Proof. induction s as [|c s IH]; [done|]. by rewrite string_app_cons, IH. Qed.

Lemma string_app_assoc s t u : (s +:+ t) +:+ u = s +:+ (t +:+ u).
Proof. induction s as [|c s IH]; [done|]. by rewrite !string_app_cons, IH. Qed.

Lemma string_app_eq_nil s t : s +:+ t = EmptyString -> s = EmptyString /\ t = EmptyString.
Proof. destruct s; [done|]. rewrite string_app_cons. discriminate. Qed.

Lemma string_app_eq_cons s t c u :
  s +:+ t = String c u ->
  (s = EmptyString /\ t = String c u) \/ (exists s', s = String c s' /\ u = s' +:+ t).
Proof.
  destruct s as [|c' s']; [by left|]. rewrite string_app_cons. intros [= -> <-].
  right. by eexists.
Qed.

Lemma prefix_app s t : String.prefix s t = true <-> exists u, t = s +:+ u.
Proof.
  revert t. induction s as [|c s IH]; intros t.
  - split; [|by destruct t]. intros _. by exists t.
  - destruct t as [|c' t]; simpl.
    + split; [done|]. intros [u Hu]. rewrite string_app_cons in Hu. discriminate.
    + destruct (ascii_dec c c') as [->|Hne].
      * rewrite IH. split; intros [u Hu]; exists u.
        -- by rewrite string_app_cons, Hu.
        -- rewrite string_app_cons in Hu. by inversion Hu.
      * split; [done|]. intros [u Hu]. rewrite string_app_cons in Hu. by inversion Hu.
Qed.

(** [includes] finds exactly the substrings. *)
Lemma includes_app s p :
  Js.includes s p = true <-> exists pre post, s = pre +:+ p +:+ post.
Proof.
  induction s as [|c s IH]; cbn [Js.includes].
  - rewrite orb_false_r, prefix_app. split.
    + intros [u Hu]. exists EmptyString, u. by rewrite string_app_nil_l.
    + intros (pre & post & H). symmetry in H.
      apply string_app_eq_nil in H as [_ H]. exists post. by rewrite H.
  - rewrite orb_true_iff, prefix_app, IH. split.
    + intros [[u Hu]|(pre & post & ->)].
      * by exists EmptyString, u.
      * exists (String c pre), post. by rewrite string_app_cons.
    + intros (pre & post & H). destruct pre as [|c' pre].
      * left. by exists post.
      * right. rewrite string_app_cons in H. inversion H; subst. by exists pre, post.
Qed.

End Strings.

Section RegexSemantics.

Import Regex.

Implicit Types (r a b : regex) (s t : string) (c : ascii).

Lemma matches_none s : ~ matches RNone s.
Proof. intros H. inversion H. Qed.

Lemma matches_eps_inv s : matches REps s -> s = EmptyString.
Proof. by inversion 1. Qed.

Lemma matches_set_inv f s :
  matches (RSet f) s -> exists c, s = String c EmptyString /\ f c = true.
Proof. inversion 1; subst. by eexists. Qed.

Lemma matches_seq_inv a b u :
  matches (RSeq a b) u -> exists s t, u = s +:+ t /\ matches a s /\ matches b t.
Proof. inversion 1; subst. by eexists _, _. Qed.

Lemma matches_alt_inv a b s : matches (RAlt a b) s -> matches a s \/ matches b s.
Proof. inversion 1; subst; auto. Qed.

Lemma nullable_matches r : nullable r = true <-> matches r EmptyString.
Proof.
  split.
  - induction r; simpl; intros H; try done.
    + constructor.
    + apply andb_true_iff in H as [??].
      change EmptyString with (EmptyString +:+ EmptyString). constructor; auto.
    + apply orb_true_iff in H as [?|?]; [apply MAltL|apply MAltR]; auto.
    + constructor.
  - intros H. remember EmptyString as e eqn:He.
    induction H; simpl; try done.
    + apply string_app_eq_nil in He as [-> ->]. by rewrite IHmatches1, IHmatches2.
    + by rewrite IHmatches.
    + rewrite IHmatches by done. apply orb_true_r.
Qed.

Lemma mk_seq_matches a b s : matches (mk_seq a b) s <-> matches (RSeq a b) s.
Proof.
  destruct a; simpl; try done.
  split; intros H; [by apply matches_none in H|].
  apply matches_seq_inv in H as (? & ? & _ & H & _). by apply matches_none in H.
Qed.

Lemma mk_alt_matches a b s : matches (mk_alt a b) s <-> matches (RAlt a b) s.
Proof.
  split.
  - destruct a, b; simpl; intros H;
      first [by apply matches_none in H | by apply MAltL | by apply MAltR | done].
  - intros H. apply matches_alt_inv in H as [H|H].
    + destruct a, b; simpl;
        first [by apply matches_none in H | done | by apply MAltL].
    + destruct a, b; simpl;
        first [by apply matches_none in H | done | by apply MAltR].
Qed.

(** A match of a sequence on a string that starts with [c]. *)
Lemma matches_seq_cons a b c s :
  matches (RSeq a b) (String c s) <->
  (exists s1 s2, s = s1 +:+ s2 /\ matches a (String c s1) /\ matches b s2)
  \/ (matches a EmptyString /\ matches b (String c s)).
Proof.
  split.
  - intros H. apply matches_seq_inv in H as (s1 & s2 & Heq & Ha & Hb).
    symmetry in Heq.
    apply string_app_eq_cons in Heq as [[-> ->]|(s' & -> & ->)]; [by right|].
    left. by exists s', s2.
  - intros [(s1 & s2 & -> & Ha & Hb)|[Ha Hb]].
    + rewrite <- string_app_cons. by constructor.
    + rewrite <- (string_app_nil_l (String c s)). by constructor.
Qed.

Lemma matches_star_cons a c s :
  matches (RStar a) (String c s) <->
  exists s1 s2, s = s1 +:+ s2 /\ matches a (String c s1) /\ matches (RStar a) s2.
Proof.
  split.
  - intros H. remember (RStar a) as r eqn:Hr. remember (String c s) as u eqn:Hu.
    revert s Hu. induction H as [| | | | | |a' s1 s2 Ha _ Hs IHs];
      intros s' Hu; try done.
    inversion Hr; subst.
    apply string_app_eq_cons in Hu as [[-> ->]|(s1' & -> & ->)].
    + by apply IHs.
    + by exists s1', s2.
  - intros (s1 & s2 & -> & Ha & Hs). rewrite <- string_app_cons. by constructor.
Qed.

Lemma deriv_matches r c s : matches (deriv c r) s <-> matches r (String c s).
Proof.
  revert s. induction r as [| |f|a IHa b IHb|a IHa b IHb|a IHa]; intros s; simpl.
  - split; intros H; by apply matches_none in H.
  - split; intros H; [by apply matches_none in H|].
    by apply matches_eps_inv in H.
  - destruct (f c) eqn:Hf; split; intros H.
    + apply matches_eps_inv in H as ->. by constructor.
    + apply matches_set_inv in H as (c' & [= ? ?] & _). subst. constructor.
    + by apply matches_none in H.
    + apply matches_set_inv in H as (c' & [= ? ?] & ?). subst. congruence.
  - rewrite matches_seq_cons. destruct (nullable a) eqn:Hn.
    + rewrite mk_alt_matches. split.
      * intros H. apply matches_alt_inv in H as [H|H].
        -- apply mk_seq_matches, matches_seq_inv in H as (s1 & s2 & -> & Ha & Hb).
           left. exists s1, s2. split; [done|]. split; [by apply IHa|done].
        -- right. split; [by apply nullable_matches|by apply IHb].
      * intros [(s1 & s2 & -> & Ha & Hb)|[Ha Hb]].
        -- apply MAltL, mk_seq_matches. constructor; [by apply IHa|done].
        -- apply MAltR. by apply IHb.
    + rewrite mk_seq_matches. split.
      * intros H. apply matches_seq_inv in H as (s1 & s2 & -> & Ha & Hb).
        left. exists s1, s2. split; [done|]. split; [by apply IHa|done].
      * intros [(s1 & s2 & -> & Ha & Hb)|[Ha Hb]].
        -- constructor; [by apply IHa|done].
        -- apply nullable_matches in Ha. congruence.
  - rewrite mk_alt_matches. split; intros H; apply matches_alt_inv in H as [H|H].
    + apply MAltL. by apply IHa.
    + apply MAltR. by apply IHb.
    + apply MAltL. by apply IHa.
    + apply MAltR. by apply IHb.
  - rewrite mk_seq_matches, matches_star_cons. split.
    + intros H. apply matches_seq_inv in H as (s1 & s2 & -> & Ha & Hs).
      exists s1, s2. split; [done|]. split; [by apply IHa|done].
    + intros (s1 & s2 & -> & Ha & Hs). constructor; [by apply IHa|done].
Qed.

(** The derivative matcher decides the denotation. *)
Lemma full_matches r s : full r s = true <-> matches r s.
Proof.
  revert r. induction s as [|c s IH]; intros r; simpl.
  - apply nullable_matches.
  - by rewrite IH, deriv_matches.
Qed.

Lemma matches_anything s : matches anything s.
Proof.
  induction s as [|c s IH]; [constructor|].
  change (String c s) with (String c EmptyString +:+ s).
  constructor; [by constructor|done].
Qed.

Lemma matches_lit w s : matches (lit w) s <-> s = w.
Proof.
  revert s. induction w as [|c w IH]; intros s; simpl.
  - split; [apply matches_eps_inv|intros ->; constructor].
  - split.
    + intros H. apply matches_seq_inv in H as (s1 & s2 & -> & Hc & Hw).
      apply matches_set_inv in Hc as (c' & -> & Hc). apply IH in Hw as ->.
      by rewrite (bool_decide_eq_true_1 _ Hc).
    + intros ->. change (String c w) with (String c EmptyString +:+ w).
      constructor; [|by apply IH]. constructor. by apply bool_decide_eq_true_2.
Qed.

Lemma test_matches r s :
  test r s = true <->
  exists pre mid post, s = pre +:+ mid +:+ post /\ matches r mid.
Proof.
  unfold test. rewrite full_matches. split.
  - intros H. apply matches_seq_inv in H as (pre & u & -> & _ & Hu).
    apply matches_seq_inv in Hu as (mid & post & -> & Hmid & _).
    by exists pre, mid, post.
  - intros (pre & mid & post & -> & Hmid).
    constructor; [apply matches_anything|].
    constructor; [done|apply matches_anything].
Qed.

Lemma test_prefix_matches r s :
  test_prefix r s = true <-> exists pre post, s = pre +:+ post /\ matches r pre.
Proof.
  unfold test_prefix. rewrite full_matches. split.
  - intros H. apply matches_seq_inv in H as (pre & post & -> & Hpre & _).
    by exists pre, post.
  - intros (pre & post & -> & Hpre). constructor; [done|apply matches_anything].
Qed.

(** Searching for a literal is [includes]. *)
Lemma test_lit w s : test (lit w) s = Js.includes s w.
Proof.
  apply eq_true_iff_eq. rewrite test_matches, includes_app. split.
  - intros (pre & mid & post & -> & Hmid). apply matches_lit in Hmid as ->.
    by exists pre, post.
  - intros (pre & post & ->). exists pre, w, post. split; [done|].
    by apply matches_lit.
Qed.

End RegexSemantics.

(** ** What the validators accept *)

Section Validators.

Import Regex Validator.

Implicit Types (s t : string) (c : ascii) (f : ascii -> bool).

Lemma chars_app s t :
  list_ascii_of_string (s +:+ t) = list_ascii_of_string s ++ list_ascii_of_string t.
Proof. induction s as [|c s IH]; [done|]. rewrite string_app_cons. simpl. by rewrite IH. Qed.

Lemma matches_star_set f s :
  matches (RStar (RSet f)) s <-> forallb f (list_ascii_of_string s) = true.
Proof.
  induction s as [|c s IH]; simpl.
  - split; [done|]. intros _. constructor.
  - rewrite matches_star_cons, andb_true_iff, <- IH. split.
    + intros (s1 & s2 & -> & Hc & Hs).
      apply matches_set_inv in Hc as (c' & [= ? ?] & Hc). subst. by split.
    + intros [Hc Hs]. exists EmptyString, s. split; [done|]. split; [|done].
      by constructor.
Qed.

(** [/^[...]+$/]: the string is not empty and all its characters are in
    the class. *)
Lemma full_plus_set f s :
  full (plus (RSet f)) s = true
  <-> s <> EmptyString /\ forallb f (list_ascii_of_string s) = true.
Proof.
  rewrite full_matches. unfold plus. split.
  - intros H. apply matches_seq_inv in H as (s1 & s2 & -> & Hc & Hs).
    apply matches_set_inv in Hc as (c & -> & Hc). split; [done|].
    rewrite string_app_cons. simpl. rewrite Hc. by apply matches_star_set.
  - intros [Hne Hall]. destruct s as [|c s]; [done|].
    simpl in Hall. apply andb_true_iff in Hall as [Hc Hs].
    change (String c s) with (String c EmptyString +:+ s).
    constructor; [by constructor|by apply matches_star_set].
Qed.

(** Searching for one character of a class. *)
Lemma test_set f s :
  test (RSet f) s = existsb f (list_ascii_of_string s).
Proof.
  apply eq_true_iff_eq. rewrite test_matches, existsb_exists. split.
  - intros (pre & mid & post & -> & Hmid).
    apply matches_set_inv in Hmid as (c & -> & Hc). exists c. split; [|done].
    rewrite !chars_app. apply in_or_app. right. apply in_or_app. left. by left.
  - intros (c & Hin & Hc). apply in_split in Hin as (l1 & l2 & Hs).
    exists (string_of_list_ascii l1), (String c EmptyString), (string_of_list_ascii l2).
    split; [|by constructor].
    rewrite <- (string_of_list_ascii_of_string s), Hs.
    clear. induction l1 as [|a l1 IH]; simpl; [done|].
    by rewrite string_app_cons, IH.
Qed.

End Validators.

Section Validators2.

Import Regex Validator.

Implicit Types (s t : string) (c : ascii) (f : ascii -> bool).

Lemma includes_char cs c :
  Js.includes cs (String c EmptyString) = true <-> In c (list_ascii_of_string cs).
Proof.
  induction cs as [|a cs IH]; simpl; [done|].
  rewrite orb_true_iff, IH. destruct (ascii_dec c a) as [->|Hne].
  - split; [by left|]. intros _. left. by destruct cs.
  - split; [intros [?|?]; [done|by right]|]. intros [?|?]; [congruence|by right].
Qed.

Lemma result_valid errs san :
  valid (result_of errs san) = true <-> errs = [].
Proof.
  unfold result_of. simpl. rewrite bool_decide_eq_true. by destruct errs.
Qed.

Lemma omap_nil {A B} (g : A -> option B) (l : list A) :
  omap g l = [] <-> Forall (fun x => g x = None) l.
Proof.
  induction l as [|x l IH]; simpl; [by split; [constructor|]|].
  destruct (g x) eqn:Hx.
  - split; [done|]. intros H. inversion H; congruence.
  - rewrite IH. split; [by constructor|]. by inversion 1.
Qed.

End Validators2.


(** X1.  [validateCommand], soundness.  A command that is accepted is not empty,
    is at most 1000 characters long, has none of the characters
    [; & | ` $ ( ) { } [ ]], and contains neither [..], nor [sudo], nor
    [rm -rf]; its sanitized form is the command trimmed. *)
Theorem validateCommand_accepts_only (command : string) :
  Validator.valid (Validator.validateCommand command) = true ->
  command <> EmptyString /\
  (String.length command <= 1000)%nat /\
  (forall c, In c (list_ascii_of_string command) ->
             ~ In c (list_ascii_of_string shell_meta)) /\
  Js.includes command ".." = false /\
  Js.includes command "sudo" = false /\
  Js.includes command "rm -rf" = false /\
  Validator.sanitized (Validator.validateCommand command) = Js.trim command.
Proof.
  intros Hvalid. unfold Validator.validateCommand in *.
  apply result_valid in Hvalid.
  case_bool_decide as Hempty; [done|].
  apply app_eq_nil in Hvalid as [Hpat Hlen].
  apply omap_nil in Hpat. unfold Validator.dangerousPatterns in Hpat.
  repeat match goal with
         | H : Forall _ (_ :: _) |- _ => apply Forall_cons in H as [? H]
         end.
  repeat match goal with
         | H : (if Regex.test ?r command then _ else _) = None |- _ =>
             destruct (Regex.test r command) eqn:?; [discriminate H|clear H]
         end.
  split; [done|]. split.
  { destruct (1000 <? String.length command)%nat eqn:Hl; [done|].
    by apply Nat.ltb_ge in Hl. }
  split.
  { intros c Hin Hmeta.
    match goal with
    | H : Regex.test (Regex.one_of _) command = false |- _ =>
        unfold Regex.one_of in H; rewrite test_set in H;
        apply not_true_iff_false in H; apply H
    end.
    apply existsb_exists. exists c. split; [done|]. by apply includes_char. }
  split; [by rewrite <- test_lit|]. split; [by rewrite <- test_lit|].
  split; [|done].
  apply not_true_iff_false. intros Hrm.
  apply includes_app in Hrm as (pre & post & ->).
  match goal with
  | H : Regex.test (Regex.RSeq (Regex.lit "rm") _) _ = false |- _ =>
      apply not_true_iff_false in H; apply H
  end.
  apply test_matches. exists pre, "rm -rf", post. split; [done|].
  change "rm -rf" with ("rm" +:+ (" " +:+ "-rf")).
  constructor; [by apply matches_lit|].
  constructor; [|by apply matches_lit].
  change " " with (" " +:+ EmptyString).
  constructor; [by constructor|constructor].
Qed.

Lemma validateCommand_accepts_only_witness :
  Js.includes "sleep 100" "sudo" = false /\
  Validator.sanitized (Validator.validateCommand "sleep 100") = "sleep 100".
Proof.
  destruct (validateCommand_accepts_only "sleep 100" eq_refl)
    as (_ & _ & _ & _ & Hsudo & _ & Hsan).
  by split.
Defined.

Section Trim.

Implicit Types (s : string) (c : ascii).

Lemma trimEnd_id s :
  forallb (fun c => negb (Js.is_ws c)) (list_ascii_of_string s) = true ->
  Js.trimEnd s = s.
Proof.
  induction s as [|c s IH]; simpl; [done|].
  intros [Hc Hs]%andb_true_iff. rewrite (IH Hs).
  destruct s; [|done]. by destruct (Js.is_ws c).
Qed.

(** A string without blanks is its own trimmed form. *)
Lemma trim_id s :
  forallb (fun c => negb (Js.is_ws c)) (list_ascii_of_string s) = true ->
  Js.trim s = s.
Proof.
  intros H. unfold Js.trim.
  assert (Js.trimStart s = s) as ->; [|by apply trimEnd_id].
  destruct s as [|c s]; [done|]. simpl in *.
  apply andb_true_iff in H as [Hc _]. by destruct (Js.is_ws c).
Qed.

Lemma session_char_not_ws c : Validator.session_char c = true -> Js.is_ws c = false.
Proof. destruct c as [[] [] [] [] [] [] [] []]; by vm_compute. Qed.

Lemma path_char_not_ws c : path_char c = true -> Js.is_ws c = false.
Proof. destruct c as [[] [] [] [] [] [] [] []]; by vm_compute. Qed.

End Trim.

(** X2.  [validateSessionName] accepts exactly the names of 1 to 64 characters
    that are all letters, digits, underscores or hyphens, and hands an
    accepted name back unchanged. *)
Theorem validateSessionName_accepts (name : string) :
  (Validator.valid (Validator.validateSessionName name) = true
   <-> name <> EmptyString /\ (String.length name <= 64)%nat /\
       forall c, In c (list_ascii_of_string name) -> Validator.session_char c = true) /\
  (Validator.valid (Validator.validateSessionName name) = true ->
   Validator.sanitized (Validator.validateSessionName name) = name).
Proof.
  assert (Hiff : Validator.valid (Validator.validateSessionName name) = true
                 <-> name <> EmptyString /\ (String.length name <= 64)%nat /\
                     forallb Validator.session_char (list_ascii_of_string name) = true).
  { unfold Validator.validateSessionName. rewrite result_valid.
    case_bool_decide as Hempty.
    { split; [done|]. intros [? _]. congruence. }
    destruct (Regex.full _ name) eqn:Hfull; simpl.
    - apply full_plus_set in Hfull as [_ Hall].
      destruct (64 <? String.length name)%nat eqn:Hlen; simpl.
      + split; [done|]. intros (_ & Hle & _). apply Nat.ltb_lt in Hlen. lia.
      + apply Nat.ltb_ge in Hlen.
        destruct (String.length name <? 1)%nat eqn:H1; simpl.
        * apply Nat.ltb_lt in H1. destruct name; [congruence|simpl in H1; lia].
        * by split.
    - split; [done|]. intros (Hne & _ & Hall).
      assert (Regex.full (Regex.plus (Regex.RSet Validator.session_char)) name = true)
        by by apply full_plus_set.
      congruence. }
  split.
  - rewrite Hiff, forallb_forall. done.
  - intros Hvalid. apply Hiff in Hvalid as (_ & _ & Hall).
    change (Validator.sanitized (Validator.validateSessionName name))
      with (Js.trim name).
    apply trim_id. apply forallb_forall. intros c Hc.
    rewrite forallb_forall in Hall. by rewrite session_char_not_ws by auto.
Qed.

Lemma prefix_test_lit w s :
  Regex.test_prefix (Regex.lit w) s = String.prefix w s.
Proof.
  apply eq_true_iff_eq. rewrite test_prefix_matches, prefix_app. split.
  - intros (pre & post & -> & Hpre). apply matches_lit in Hpre as ->. by exists post.
  - intros [u ->]. exists w, u. split; [done|]. by apply matches_lit.
Qed.

Lemma validProtocols_prefix (url : string) :
  Regex.test_prefix Validator.validProtocols url
  = String.prefix "file:" url || String.prefix "http:" url
    || String.prefix "https:" url || String.prefix "zellij:" url.
Proof.
  apply eq_true_iff_eq. rewrite test_prefix_matches, !orb_true_iff, !prefix_app.
  unfold Validator.validProtocols. split.
  - intros (pre & post & -> & H).
    apply matches_alt_inv in H as [H|H];
      [apply matches_lit in H as ->; left; left; left; by eexists|].
    apply matches_alt_inv in H as [H|H];
      [|apply matches_lit in H as ->; right; by eexists].
    apply matches_seq_inv in H as (h & u & -> & Hh & Hu).
    apply matches_lit in Hh as ->.
    apply matches_seq_inv in Hu as (o & k & -> & Ho & Hk).
    apply matches_lit in Hk as ->.
    apply matches_alt_inv in Ho as [Ho|Ho].
    + apply matches_set_inv in Ho as (c & -> & Hc).
      apply bool_decide_eq_true_1 in Hc as ->. left. right. by exists post.
    + apply matches_eps_inv in Ho as ->. left. left. right. by exists post.
  - intros [[[[u ->]|[u ->]]|[u ->]]|[u ->]].
    + exists "file:", u. split; [done|]. apply Regex.MAltL. by apply matches_lit.
    + exists "http:", u. split; [done|]. apply Regex.MAltR, Regex.MAltL.
      change "http:" with ("http" +:+ (EmptyString +:+ ":")).
      constructor; [by apply matches_lit|].
      constructor; [apply Regex.MAltR; constructor|by apply matches_lit].
    + exists "https:", u. split; [done|]. apply Regex.MAltR, Regex.MAltL.
      change "https:" with ("http" +:+ ("s" +:+ ":")).
      constructor; [by apply matches_lit|].
      constructor; [apply Regex.MAltL; by constructor|by apply matches_lit].
    + exists "zellij:", u. split; [done|]. apply Regex.MAltR, Regex.MAltR.
      by apply matches_lit.
Qed.

Lemma allowedFileUrl_includes (url : string) :
  Regex.test Validator.allowedFileUrl url
  = Js.includes url "file:///tmp/" || Js.includes url "file:///home/"
    || Js.includes url "file:///usr/share/" || Js.includes url "file://./".
Proof.
  apply eq_true_iff_eq. rewrite test_matches, !orb_true_iff, !includes_app.
  unfold Validator.allowedFileUrl. split.
  - intros (pre & mid & post & -> & H).
    apply matches_seq_inv in H as (h & u & -> & Hh & Hu).
    apply matches_lit in Hh as ->.
    repeat (apply matches_alt_inv in Hu as [Hu|Hu]);
      apply matches_lit in Hu as ->.
    + left. left. left. by exists pre, post.
    + left. left. right. by exists pre, post.
    + left. right. by exists pre, post.
    + right. by exists pre, post.
  - intros [[[(pre & post & ->)|(pre & post & ->)]|(pre & post & ->)]|(pre & post & ->)].
    + exists pre, "file:///tmp/", post. split; [done|].
      change "file:///tmp/" with ("file://" +:+ "/tmp/").
      constructor; [by apply matches_lit|]. apply Regex.MAltL. by apply matches_lit.
    + exists pre, "file:///home/", post. split; [done|].
      change "file:///home/" with ("file://" +:+ "/home/").
      constructor; [by apply matches_lit|].
      apply Regex.MAltR, Regex.MAltL. by apply matches_lit.
    + exists pre, "file:///usr/share/", post. split; [done|].
      change "file:///usr/share/" with ("file://" +:+ "/usr/share/").
      constructor; [by apply matches_lit|].
      apply Regex.MAltR, Regex.MAltR, Regex.MAltL. by apply matches_lit.
    + exists pre, "file://./", post. split; [done|].
      change "file://./" with ("file://" +:+ "./").
      constructor; [by apply matches_lit|].
      apply Regex.MAltR, Regex.MAltR, Regex.MAltR. by apply matches_lit.
Qed.

(** X3.  [validatePluginUrl] accepts exactly: the URLs that start with [http:],
    [https:] or [zellij:], whatever follows; and the URLs that start with
    [file:], have no [..], and contain one of [file:///tmp/],
    [file:///home/], [file:///usr/share/], [file://./] anywhere, at their
    start or not. *)
Theorem validatePluginUrl_accepts (url : string) :
  Validator.valid (Validator.validatePluginUrl url) = true
  <-> (String.prefix "http:" url = true \/ String.prefix "https:" url = true
       \/ String.prefix "zellij:" url = true)
      \/ (String.prefix "file:" url = true /\ Js.includes url ".." = false /\
          (Js.includes url "file:///tmp/" = true \/ Js.includes url "file:///home/" = true
           \/ Js.includes url "file:///usr/share/" = true
           \/ Js.includes url "file://./" = true)).
Proof.
  unfold Validator.validatePluginUrl. rewrite result_valid.
  case_bool_decide as Hempty.
  { subst url. split; [done|]. intros [[?|[?|?]]|[? _]]; done. }
  rewrite validProtocols_prefix, allowedFileUrl_includes.
  destruct (String.prefix "file:" url) eqn:Hfile.
  - assert (String.prefix "http:" url = false /\ String.prefix "https:" url = false
            /\ String.prefix "zellij:" url = false) as (-> & -> & ->).
    { destruct url as [|[[] [] [] [] [] [] [] []] url]; try done. }
    simpl. destruct (Js.includes url "..") eqn:Hdots; simpl.
    + split; [done|]. intros [[?|[?|?]]|(_ & ? & _)]; done.
    + destruct (_ || _) eqn:Hany; simpl.
      * split; [|done]. intros _. right. split; [done|]. split; [done|].
        apply orb_true_iff in Hany as [Hany|?]; [|tauto].
        apply orb_true_iff in Hany as [Hany|?]; [|tauto].
        apply orb_true_iff in Hany as [?|?]; tauto.
      * split; [done|]. intros [[?|[?|?]]|(_ & _ & Hany')]; try done.
        apply not_true_iff_false in Hany. exfalso. apply Hany.
        rewrite !orb_true_iff. tauto.
  - simpl. rewrite app_nil_r.
    destruct (String.prefix "http:" url) eqn:H1; simpl.
    { split; [|done]. intros _. left. by left. }
    destruct (String.prefix "https:" url) eqn:H2; simpl.
    { split; [|done]. intros _. left. right. by left. }
    destruct (String.prefix "zellij:" url) eqn:H3; simpl.
    { split; [|done]. intros _. left. right. by right. }
    split; [done|]. intros [[?|[?|?]]|[? _]]; done.
Qed.

Lemma validateSessionName_accepts_witness :
  Validator.sanitized (Validator.validateSessionName "dev-main_2") = "dev-main_2".
Proof.
  apply (proj2 (validateSessionName_accepts "dev-main_2")). reflexivity.
Defined.

(** ** Validation in front of the watches *)






(** ** After the outcome *)

Section Quiet.

Implicit Types (st : State) (id k : nat) (w : Watch) (j : Job) (o : Settled).

Lemma quiet_same st st' :
  watches st' = watches st -> jobs st' = jobs st -> quiet st -> quiet st'.
Proof. unfold quiet. by intros -> ->. Qed.

Lemma jobs_upd_watch id (f : Watch -> Watch) st : jobs (upd_watch id f st) = jobs st.
Proof. reflexivity. Qed.

Lemma jobs_cleanup id st : jobs (cleanup id st) = jobs st.
Proof.
  unfold cleanup. destruct (watches st !! id); [|done]. by case_bool_decide.
Qed.

Lemma quiet_upd_watch id (f : Watch -> Watch) st :
  (forall w, watch_quiet w -> watch_quiet (f w)) ->
  quiet st -> quiet (upd_watch id f st).
Proof.
  intros Hf [Hw Hj]. split; [|done].
  rewrite watches_upd_watch. apply Forall_alter; [done|]. intros w _. apply Hf.
Qed.

Lemma quiet_cleanup id st : quiet st -> quiet (cleanup id st).
Proof.
  intros [Hw Hj]. split.
  - rewrite watches_cleanup. apply Forall_alter; [done|]. by intros w _ _ _.
  - by rewrite jobs_cleanup.
Qed.

(** Every handler of a watch runs [cleanup] before it settles. *)
Lemma quiet_settle_cleanup id o st :
  quiet st -> quiet (upd_watch id (settle_watch o) (cleanup id st)).
Proof.
  intros [Hw Hj]. split.
  - rewrite watches_upd_watch, watches_cleanup.
    apply Forall_alter.
    + apply Forall_alter; [done|]. by intros w _ _ _.
    + intros w Hlook _ _. rewrite list_lookup_alter_eq in Hlook.
      destruct (watches st !! id) as [w'|]; [|done].
      injection Hlook as <-. unfold settle_watch.
      by destruct (w_promise (clear_timer w')).
  - by rewrite jobs_upd_watch, jobs_cleanup.
Qed.

Lemma quiet_checkFile id st : quiet st -> quiet (checkFile id st).
Proof.
  intros H. unfold checkFile. destruct (watches st !! id) as [w|]; [|done].
  destruct (files st !! w_path w) as [[content|]|]; [|done|done].
  destruct (0 <? length (w_patterns w))%nat.
  - destruct (scanPatterns _ _); [|done]. by apply quiet_settle_cleanup.
  - by apply quiet_settle_cleanup.
Qed.

Lemma quiet_listeners (l : list nat) st :
  quiet st -> quiet (foldl (fun s id => checkFile id s) st l).
Proof.
  revert st. induction l as [|id l IH]; intros st H; [done|].
  simpl. by apply IH, quiet_checkFile.
Qed.

Lemma quiet_new_watch w st :
  w_promise w = None -> quiet st -> quiet (set_watches (fun l => l ++ [w]) st).
Proof.
  intros Hp [Hw Hj]. split; [|done]. cbn [watches set_watches].
  apply Forall_app. split; [done|]. apply Forall_singleton.
  intros [o Ho]. congruence.
Qed.

Lemma quiet_upd_job k (f : Job -> Job) st :
  (forall j, job_quiet j -> job_quiet (f j)) ->
  quiet st -> quiet (upd_job k f st).
Proof.
  intros Hf [Hw Hj]. split; [done|].
  cbn [jobs upd_job set_jobs]. apply Forall_alter; [done|]. intros j _. apply Hf.
Qed.

(** The handlers of a piped command set [completed] and cancel the timer
    before they settle. *)
Lemma job_quiet_finish k o (l : list Job) :
  Forall job_quiet l ->
  Forall job_quiet
    (alter (settle_job o) k (alter clear_job_timer k (alter complete_job k l))).
Proof.
  intros Hl. rewrite !list_alter_alter_eq.
  apply Forall_alter; [done|]. intros j _ _. unfold settle_job, compose.
  destruct (j_promise _); by split.
Qed.

Lemma quiet_onExit k code st : quiet st -> quiet (onExit k code st).
Proof.
  intros [Hw Hj]. unfold onExit. destruct (jobs st !! k) as [j|]; [|done].
  destruct (j_completed j); [done|]. split; [done|].
  by apply job_quiet_finish.
Qed.

Lemma quiet_onChildError k message st : quiet st -> quiet (onChildError k message st).
Proof.
  intros [Hw Hj]. unfold onChildError. destruct (jobs st !! k) as [j|]; [|done].
  destruct (j_completed j); [done|]. split; [done|].
  by apply job_quiet_finish.
Qed.

(** The timer of a piped command, once it has fired. *)
Lemma quiet_job_timer k st :
  quiet st -> quiet (upd_job k clear_job_timer (onJobTimeout k st)).
Proof.
  intros [Hw Hj]. unfold onJobTimeout.
  destruct (jobs st !! k) as [j|] eqn:Hk.
  - destruct (j_completed j) eqn:Hc.
    + apply quiet_upd_job; [|done]. intros j' [H1 H2]. by split.
    + assert (Hdone : Forall job_quiet
                        (alter clear_job_timer k (alter complete_job k (jobs st)))).
      { rewrite list_alter_alter_eq. apply Forall_alter; [done|].
        intros j' _ [H1 _]. by split. }
      assert (Hsettled : forall o,
                 Forall job_quiet
                   (alter clear_job_timer k
                      (alter (settle_job o) k (alter complete_job k (jobs st))))).
      { intros o. rewrite !list_alter_alter_eq. apply Forall_alter; [done|].
        intros j' _ _. unfold settle_job, compose.
        destruct (j_promise _); by split. }
      destruct (processes _ !! _) as [proc|].
      * destruct (cp_kill_throws proc); split; try done. apply Hsettled.
      * split; [done|]. apply Hsettled.
  - apply quiet_upd_job; [|done]. intros j' [H1 H2]. by split.
Qed.

Lemma quiet_step ev st : quiet st -> quiet (step ev st).
Proof.
  intros H. destruct ev as [id|path content|path|id chunk|id|id message|k|k code|k message];
    cbn [step].
  - destruct (watches st !! id) as [w|] eqn:Hw; [|done].
    destruct (w_timer w); [|done]. unfold onTimeout. rewrite Hw.
    by apply quiet_settle_cleanup.
  - apply quiet_listeners. by apply (quiet_same st).
  - by apply (quiet_same st).
  - destruct (stream_open id st); [|done]. unfold onData.
    destruct (watches st !! id) as [w|]; [|done]. cbv zeta.
    assert (quiet (upd_watch id (set_buffer (w_buffer w +:+ chunk)) st)) as Hb
      by (apply quiet_upd_watch; [by intros w'|done]).
    destruct (0 <? length (w_patterns w))%nat; [|done].
    destruct (scanPatterns _ _); [|done].
    apply quiet_settle_cleanup, quiet_upd_watch; [by intros w'|done].
  - destruct (stream_open id st); [|done].
    apply quiet_upd_watch; [by intros w'|]. unfold onEnd.
    destruct (watches st !! id) as [w|]; [|done]. by apply quiet_settle_cleanup.
  - destruct (stream_open id st); [|done].
    apply quiet_upd_watch; [by intros w'|]. by apply quiet_settle_cleanup.
  - destruct (jobs st !! k) as [j|]; [|done]. destruct (j_timer j); [|done].
    by apply quiet_job_timer.
  - by apply quiet_onExit.
  - by apply quiet_onChildError.
Qed.

Lemma quiet_reachable st : reachable st -> quiet st.
Proof.
  induction 1 as [fs|ev st _ IH|path patterns timeout st _ IH
                  |path patterns timeout st _ IH
                  |spawn command targetPipe timeout processId st _ IH
                  |run pipeName mode st _ IH|run pid interval st _ IH
                  |wrapperName llmCommand detectMarker timeout write_error st _ IH
                  |run st _ IH].
  - split; constructor.
  - by apply quiet_step.
  - unfold watchFile. destruct (negb _); [done|]. destruct (_ || _); [done|].
    destruct (validatePatterns patterns) as [e|vps]; [done|]. cbn [fst].
    set (w := mkWatch FileWatch path vps (default 30000 timeout) true
                      EmptyString false false None).
    apply (quiet_same (checkFile (length (watches st))
                         (set_watches (fun l => l ++ [w]) st))); [done|done|].
    by apply quiet_checkFile, quiet_new_watch.
  - unfold watchPipe. destruct (negb _); [done|]. destruct (_ || _); [done|].
    destruct (validatePatterns patterns); [done|].
    destruct (files _ !! path); cbn [fst].
    + apply quiet_upd_watch; [by intros w'|]. by apply quiet_new_watch.
    + apply quiet_settle_cleanup. by apply quiet_new_watch.
  - unfold pipeWithTimeout. destruct (negb _); [done|]. destruct (negb _); [done|].
    destruct (_ || _); [done|]. destruct IH as [Hw Hj].
    assert (Hnew : Forall job_quiet
                     (jobs st ++ [mkJob processId
                                    (Validator.sanitized (Validator.validateCommand command))
                                    (default 30000 timeout) false true None])).
    { apply Forall_app. split; [done|]. apply Forall_singleton.
      split; [intros [o Ho]; discriminate Ho|done]. }
    destruct (spawn _) as [message|proc]; cbn [fst]; split; try done.
    by apply job_quiet_finish.
  - unfold createNamedPipe. destruct (negb _); [done|]. destruct (negb _); [done|].
    unfold execAsync. by destruct (run _).
  - unfold pollProcess. destruct (invalid_pid _); [done|]. destruct (_ || _); [done|].
    unfold execAsync. destruct (run _); [|done]. by case_bool_decide.
  - unfold createLLMWrapper. destruct (negb _); [done|]. destruct (negb _); [done|].
    destruct (negb _); [done|]. by destruct write_error.
  - done.
Qed.

End Quiet.

(** X5.  After the outcome, silence.  In every state the server can reach,
    a watch that has delivered its outcome has had its timer cancelled
    first, so the timer does nothing any more; and a piped command that has
    delivered its outcome has set its [completed] flag and cancelled its
    timer first, so its timer and the exit and error handlers of its child
    leave the whole state as it is: nothing more is killed and the registry
    is not touched. *)
Theorem delivered_call_goes_quiet (st : State) :
  reachable st ->
  (forall id o,
      outcome st (Started id) = Some o ->
      (exists w, watches st !! id = Some w /\ w_timer w = false) /\
      step (TimerFires id) st = st) /\
  (forall k o,
      outcome st (StartedJob k) = Some o ->
      (exists j, jobs st !! k = Some j /\ j_completed j = true /\ j_timer j = false) /\
      step (JobTimerFires k) st = st /\
      (forall code, step (ChildExit k code) st = st) /\
      (forall message, step (ChildError k message) st = st)).
Proof.
  intros [Hw Hj]%quiet_reachable. split.
  - intros id o Ho. cbn [outcome] in Ho.
    destruct (watches st !! id) as [w|] eqn:Hid; [|discriminate Ho].
    cbn in Ho.
    assert (Htimer : w_timer w = false).
    { apply (proj1 (Forall_lookup _ _) Hw id w Hid). by exists o. }
    split; [by exists w|]. cbn [step]. by rewrite Hid, Htimer.
  - intros k o Ho. cbn [outcome] in Ho.
    destruct (jobs st !! k) as [j|] eqn:Hk; [|discriminate Ho].
    cbn in Ho.
    destruct (proj1 (Forall_lookup _ _) Hj k j Hk) as [Hdone Htimer].
    assert (Hc : j_completed j = true) by (apply Hdone; by exists o).
    specialize (Htimer Hc).
    split; [by exists j|]. split; [|split].
    + cbn [step]. by rewrite Hk, Htimer.
    + intros code. cbn [step]. unfold onExit. by rewrite Hk, Hc.
    + intros message. cbn [step]. unfold onChildError. by rewrite Hk, Hc.
Qed.

Lemma delivered_call_goes_quiet_witness :
  let st := step (ChildExit 0 (Some 0))
              (pipeWithTimeout spawning_os "sleep 1" "/tmp/zellij-pipe-p" (Some 5000)
                 "pipe-1-abc" (initial ∅)).1 in
  outcome st (StartedJob 0)
  = Some (Resolved (job_exit_text (Some 0) "sleep 1")) /\
  step (JobTimerFires 0) st = st.
Proof.
  intros st.
  assert (Ho : outcome st (StartedJob 0)
               = Some (Resolved (job_exit_text (Some 0) "sleep 1"))) by reflexivity.
  split; [exact Ho|].
  assert (Hr : reachable st) by (apply reach_step, reach_pipeWithTimeout, reach_initial).
  exact (proj1 (proj2 (proj2 (delivered_call_goes_quiet st Hr) 0%nat _ Ho))).
Defined.

(** ** The life of a piped command *)


Section Jobs.

Variable spawn : string -> string + ChildProcess.

Implicit Types (st : State) (k : nat).

(** What a call that passes the validation does, by the answer of
    [spawn]. *)
Lemma pipeWithTimeout_started (command targetPipe : string) (timeout : option Z)
    (processId : string) st :
  Validator.valid (Validator.validateCommand command) = true ->
  valid_path targetPipe = true ->
  1000 <= default 30000 timeout <= 600000 ->
  let k := length (jobs st) in
  let j := mkJob processId (Js.trim command) (default 30000 timeout) false true None in
  let st1 := log_exec (piped_line command targetPipe)
               (set_jobs (fun l => l ++ [j]) st) in
  pipeWithTimeout spawn command targetPipe timeout processId st
  = match spawn (piped_line command targetPipe) with
    | inr proc => (set_processes (insert processId proc) st1, StartedJob k)
    | inl message =>
        (upd_job k (settle_job (Rejected (ValidationError
                                            ("Failed to execute piped command: "
                                             +:+ message))))
           (upd_job k clear_job_timer (upd_job k complete_job st1)),
         StartedJob k)
    end.
Proof.
  intros Hcmd Hpath Ht k j st1. unfold pipeWithTimeout.
  rewrite Hcmd, Hpath. cbn [negb].
  replace ((default 30000 timeout <? 1000) || (600000 <? default 30000 timeout))
    with false by (symmetry; apply orb_false_intro; lia).
  reflexivity.
Qed.

Lemma outcome_job st k (j : Job) (o : option Settled) :
  jobs st !! k = Some j -> j_promise j = o -> outcome st (StartedJob k) = o.
Proof. intros Hj Ho. unfold outcome. by rewrite Hj. Qed.

End Jobs.

(** X6.  A piped command that exits before its timeout: the call registers the
    child under its process id and stays pending; the exit resolves it with
    the exit code, removes the child from [processes] and clears the timer,
    so that the timer firing afterwards does nothing and nothing is
    killed. *)
Theorem piped_command_exit
    (spawn : string -> string + ChildProcess) (st : State)
    (command targetPipe processId : string) (timeout : option Z)
    (proc : ChildProcess) (code : option Z) :
  Validator.valid (Validator.validateCommand command) = true ->
  valid_path targetPipe = true ->
  1000 <= default 30000 timeout <= 600000 ->
  spawn (piped_line command targetPipe) = inr proc ->
  let k := length (jobs st) in
  let r := pipeWithTimeout spawn command targetPipe timeout processId st in
  let st2 := step (ChildExit k code) r.1 in
  r.2 = StartedJob k /\
  exec_log r.1 = exec_log st ++ [piped_line command targetPipe] /\
  processes r.1 !! processId = Some proc /\
  outcome r.1 r.2 = None /\
  outcome st2 r.2 = Some (Resolved (job_exit_text code (Js.trim command))) /\
  processes st2 !! processId = None /\
  killed st2 = killed st /\
  step (JobTimerFires k) st2 = st2.
Proof.
  intros Hcmd Hpath Ht Hspawn k r st2. subst st2 r.
  rewrite (pipeWithTimeout_started spawn) by done. rewrite Hspawn. cbn [fst snd].
  set (j := mkJob processId (Js.trim command) (default 30000 timeout) false true None).
  set (st1 := set_processes _ _).
  assert (Hj : jobs st1 !! k = Some j) by apply list_lookup_middle, eq_refl.
  split; [done|]. split; [done|]. split; [apply lookup_insert_eq|].
  split; [change (jobs st1 !! k ≫= j_promise = None); by rewrite Hj|].
  unfold step, onExit. fold k. rewrite Hj. cbn [j_completed j].
  set (st2 := upd_job k _ _).
  assert (Hj2 : jobs st2 !! k
                = Some (settle_job (Resolved (job_exit_text code (Js.trim command)))
                          (clear_job_timer (complete_job j)))).
  { subst st2. unfold upd_job. cbn [jobs set_jobs set_processes].
    rewrite !list_lookup_alter_eq.
    by rewrite Hj. }
  split; [change (jobs st2 !! k ≫= j_promise = Some (Resolved (job_exit_text code (Js.trim command)))); by rewrite Hj2|].
  split; [apply lookup_delete_eq|]. split; [done|].
  by rewrite Hj2.
Qed.

Lemma piped_command_exit_witness :
  let r := pipeWithTimeout spawning_os "sleep 1" "/tmp/zellij-pipe-p" (Some 5000)
             "pipe-1-abc" (initial ∅) in
  let st2 := step (ChildExit 0 (Some 0)) r.1 in
  outcome st2 r.2 = Some (Resolved (job_exit_text (Some 0) "sleep 1")) /\
  processes st2 !! "pipe-1-abc" = None /\
  step (JobTimerFires 0) st2 = st2.
Proof.
  intros r st2.
  destruct (piped_command_exit spawning_os (initial ∅) "sleep 1" "/tmp/zellij-pipe-p"
              "pipe-1-abc" (Some 5000) (mkChild (piped_line "sleep 1" "/tmp/zellij-pipe-p") false)
              (Some 0))
    as (_ & _ & _ & _ & Hout & Hproc & _ & Htimer).
  - reflexivity.
  - reflexivity.
  - simpl. lia.
  - reflexivity.
  - split; [exact Hout|]. split; [exact Hproc|exact Htimer].
Defined.

(** X7.  A piped command that outlives its timeout: the timer sends [SIGTERM] to
    the child, removes it from [processes] and resolves the call with the
    timeout text; the exit of the child afterwards changes nothing. *)
Theorem piped_command_timeout
    (spawn : string -> string + ChildProcess) (st : State)
    (command targetPipe processId : string) (timeout : option Z)
    (proc : ChildProcess) (code : option Z) :
  Validator.valid (Validator.validateCommand command) = true ->
  valid_path targetPipe = true ->
  1000 <= default 30000 timeout <= 600000 ->
  spawn (piped_line command targetPipe) = inr proc ->
  cp_kill_throws proc = false ->
  let k := length (jobs st) in
  let r := pipeWithTimeout spawn command targetPipe timeout processId st in
  let st2 := step (JobTimerFires k) r.1 in
  outcome st2 r.2
  = Some (Resolved (job_timeout_text (default 30000 timeout) (Js.trim command))) /\
  processId ∈ killed st2 /\
  processes st2 !! processId = None /\
  step (ChildExit k code) st2 = st2.
Proof.
  intros Hcmd Hpath Ht Hspawn Hkill k r st2. subst st2 r.
  rewrite (pipeWithTimeout_started spawn) by done. rewrite Hspawn. cbn [fst snd].
  set (j := mkJob processId (Js.trim command) (default 30000 timeout) false true None).
  set (st1 := set_processes _ _).
  assert (Hj : jobs st1 !! k = Some j) by apply list_lookup_middle, eq_refl.
  assert (Hp : processes st1 !! processId = Some proc) by apply lookup_insert_eq.
  set (text := job_timeout_text (default 30000 timeout) (Js.trim command)).
  assert (Hstep : step (JobTimerFires k) st1
                  = upd_job k clear_job_timer
                      (upd_job k (settle_job (Resolved text))
                         (set_processes (delete processId)
                            (set_killed (fun s => {[ processId ]} ∪ s)
                               (upd_job k complete_job st1))))).
  { unfold step. rewrite Hj. cbn [j_timer j].
    unfold onJobTimeout. rewrite Hj. cbn [j_completed j j_processId].
    change (processes (upd_job k complete_job st1)) with (processes st1).
    by rewrite Hp, Hkill. }
  fold k. rewrite Hstep. clear Hstep.
  set (st2 := upd_job k clear_job_timer _).
  assert (Hj2 : jobs st2 !! k
                = Some (clear_job_timer
                          (settle_job (Resolved text) (complete_job j)))).
  { subst st2. unfold upd_job. cbn [jobs set_jobs set_processes set_killed].
    by rewrite !list_lookup_alter_eq, Hj. }
  split; [by apply (outcome_job _ _ _ _ Hj2)|].
  split; [apply elem_of_union_l, elem_of_singleton; done|].
  split; [apply lookup_delete_eq|].
  unfold step, onExit. by rewrite Hj2.
Qed.

Lemma piped_command_timeout_witness :
  let r := pipeWithTimeout spawning_os "sleep 100" "/tmp/zellij-pipe-p" (Some 1000)
             "pipe-1-abc" (initial ∅) in
  let st2 := step (JobTimerFires 0) r.1 in
  outcome st2 r.2 = Some (Resolved (job_timeout_text 1000 "sleep 100")) /\
  "pipe-1-abc" ∈ killed st2 /\
  step (ChildExit 0 None) st2 = st2.
Proof.
  intros r st2.
  pose proof (piped_command_timeout spawning_os (initial ∅) "sleep 100"
                "/tmp/zellij-pipe-p" "pipe-1-abc" (Some 1000)
                (mkChild (piped_line "sleep 100" "/tmp/zellij-pipe-p") false) None
                eq_refl eq_refl ltac:(simpl; lia) eq_refl eq_refl) as H.
  destruct H as (Hout & Hkill & _ & Hexit).
  split; [exact Hout|]. split; [exact Hkill|exact Hexit].
Defined.

(** ** The registry and the listeners *)

(** X8.  [watchPipe] adds nothing to the registry and installs no listener: every
    entry of [watchers] and of the installed listeners after the call was
    there before it. *)
Theorem watchPipe_registers_nothing
    (st : State) (path : string) (patterns : option (list string))
    (timeout : option Z) :
  watchers (watchPipe path patterns timeout st).1 ⊆ watchers st /\
  stat_watchers (watchPipe path patterns timeout st).1 ⊆ stat_watchers st.
Proof.
  unfold watchPipe. destruct (negb _); [done|]. destruct (_ || _); [done|].
  destruct (validatePatterns patterns) as [e|vps]; [done|].
  set (id := length (watches st)).
  set (w := mkWatch PipeWatch path vps (default 30000 timeout) true
                    EmptyString false false None).
  set (st1 := set_watches (fun l => l ++ [w]) st).
  assert (Hw : watches st1 !! id = Some w) by apply lookup_new_watch.
  destruct (files st1 !! path); cbn [fst]; [done|].
  unfold reject, cleanup. rewrite Hw. cbn [w_path w].
  case_bool_decide; cbn; [|done].
  split; apply delete_subseteq.
Qed.

(** X9.  Two watches on one path share the listeners of the path.  When a file
    watch resolves on a check, its [cleanup] removes the registry entry and
    every listener of its path; from then on a write to that path reaches
    no watch at all, so any other watch on the same path that is still
    pending is no longer resolved by a write, whatever is written. *)
Theorem resolved_watch_silences_its_path
    (st : State) (a : nat) (wa : Watch) (content text : string) :
  watches st !! a = Some wa ->
  w_promise wa = None ->
  is_Some (watchers st !! w_path wa) ->
  files st !! w_path wa = Some (Readable content) ->
  check_result (w_patterns wa) (w_path wa) content = Some text ->
  let st1 := checkFile a st in
  outcome st1 (Started a) = Some (Resolved text) /\
  watchers st1 !! w_path wa = None /\
  stat_watchers st1 !! w_path wa = None /\
  forall content' b,
    outcome (step (FileWritten (w_path wa) content') st1) (Started b)
    = outcome st1 (Started b).
Proof.
  intros Hw Hp Hreg Hfile Hres st1.
  assert (Hst1 : st1 = resolve a text (cleanup a st)).
  { subst st1. unfold checkFile. rewrite Hw, Hfile.
    unfold check_result in Hres.
    destruct (0 <? length (w_patterns wa))%nat.
    - destruct (scanPatterns _ _); [|done]. by inversion Hres.
    - by inversion Hres. }
  assert (Hsw : stat_watchers st1 !! w_path wa = None).
  { rewrite Hst1. by apply (stat_watchers_cleanup a st wa). }
  split; [by apply checkFile_outcome with (w := wa) (content := content)|].
  split; [rewrite Hst1; by apply (watchers_cleanup a st wa)|].
  split; [exact Hsw|].
  intros content' b. unfold step.
  change (stat_watchers (set_files _ st1)) with (stat_watchers st1).
  by rewrite Hsw.
Qed.

Lemma resolved_watch_silences_its_path_witness :
  let st0 := (watchFile "/tmp/llm-status-w" (Some ["complete:"]) (Some 60000)
                (watchFile "/tmp/llm-status-w" (Some ["running"]) (Some 60000)
                   (initial ∅)).1).1 in
  let st := set_files (insert "/tmp/llm-status-w" (Readable "running")) st0 in
  let st1 := checkFile 0 st in
  outcome st1 (Started 0)
  = Some (Resolved (file_match_text "running" "/tmp/llm-status-w")) /\
  outcome (step (FileWritten "/tmp/llm-status-w" "complete:0") st1) (Started 1) = None.
Proof.
  intros st0 st st1.
  destruct (resolved_watch_silences_its_path st 0
              (mkWatch FileWatch "/tmp/llm-status-w" ["running"] 60000 true
                       EmptyString false false None)
              "running" (file_match_text "running" "/tmp/llm-status-w"))
    as (Hout & _ & _ & Hlater).
  - reflexivity.
  - reflexivity.
  - by eexists.
  - reflexivity.
  - reflexivity.
  - split; [exact Hout|].
    etrans; [exact (Hlater "complete:0" 1%nat)|reflexivity].
Defined.

Lemma cleanupDetection_on_empty (run : string -> ExecOutcome) (s : State) :
  watchers s = ∅ -> processes s = ∅ ->
  cleanupDetection run s
  = (log_exec find_command s,
     Resolved "Detection cleanup completed. Stopped 0 watchers/processes and cleaned temporary files.").
Proof.
  destruct s as [ws ps sw fs wl jl kl el]. simpl. intros -> ->.
  unfold cleanupDetection, killable. cbn [watchers processes].
  rewrite map_filter_empty. f_equal.
  unfold execAsync, log_exec, set_processes, set_killed, set_watchers,
    set_stat_watchers.
  cbn [fst watchers processes stat_watchers files watches jobs killed exec_log].
  f_equal.
  - apply map_filter_id. intros i x _. apply lookup_empty.
  - by rewrite dom_empty_L, (left_id_L ∅ (∪)).
Qed.

(** X10.  A second sweep right after a sweep finds nothing: both registries are
    empty after the first, and the second reports zero stopped watchers and
    processes and only runs the [find] again. *)
Theorem sweep_twice (run : string -> ExecOutcome) (st : State) :
  let st1 := (cleanupDetection run st).1 in
  watchers st1 = ∅ /\
  processes st1 = ∅ /\
  cleanupDetection run st1
  = (log_exec find_command st1,
     Resolved "Detection cleanup completed. Stopped 0 watchers/processes and cleaned temporary files.").
Proof.
  intros st1. split; [done|]. split; [done|].
  by apply cleanupDetection_on_empty.
Qed.

(** X11.  A pipe watch accumulates what it reads: a pattern that is cut by the
    boundary between two chunks is found when the second chunk arrives. *)
Theorem pattern_across_chunks
    (st : State) (id : nat) (w : Watch) (chunk1 chunk2 pattern : string) :
  watches st !! id = Some w ->
  w_promise w = None ->
  w_stream w = true ->
  scanPatterns (w_patterns w) (w_buffer w +:+ chunk1) = None ->
  scanPatterns (w_patterns w) ((w_buffer w +:+ chunk1) +:+ chunk2) = Some pattern ->
  let st1 := step (StreamData id chunk1) st in
  let st2 := step (StreamData id chunk2) st1 in
  outcome st1 (Started id) = None /\
  outcome st2 (Started id) = Some (Resolved (pipe_match_text pattern (w_path w))).
Proof.
  intros Hw Hp Hs Hnone Hsome st1 st2.
  assert (Hst1 : st1 = upd_watch id (set_buffer (w_buffer w +:+ chunk1)) st).
  { subst st1. unfold step, stream_open. rewrite Hw, Hs. unfold onData. rewrite Hw, Hnone.
    by destruct (0 <? length (w_patterns w))%nat. }
  set (w1 := set_buffer (w_buffer w +:+ chunk1) w).
  assert (Hw1 : watches st1 !! id = Some w1).
  { by rewrite Hst1, watches_upd_watch, list_lookup_alter_eq, Hw. }
  split; [unfold outcome; by rewrite Hw1|].
  subst st2. unfold step, stream_open. rewrite Hw1. cbn [w1 set_buffer w_stream].
  rewrite Hs. unfold onData. rewrite Hw1. cbn [w1 set_buffer w_buffer w_patterns w_path].
  rewrite (scanPatterns_nonempty _ _ _ Hsome), Hsome.
  apply outcome_resolve_cleanup
    with (w := set_found (set_buffer ((w_buffer w +:+ chunk1) +:+ chunk2) w1)); [|done].
  by rewrite !watches_upd_watch, !list_lookup_alter_eq, Hw1.
Qed.

Lemma pattern_across_chunks_witness :
  let st := (watchPipe "/tmp/zellij-pipe-p" (Some ["DONE"]) (Some 2000)
               (initial {[ "/tmp/zellij-pipe-p" := Readable EmptyString ]})).1 in
  let st1 := step (StreamData 0 "processing DO") st in
  let st2 := step (StreamData 0 "NE") st1 in
  outcome st1 (Started 0) = None /\
  outcome st2 (Started 0)
  = Some (Resolved (pipe_match_text "DONE" "/tmp/zellij-pipe-p")).
Proof.
  intros st.
  apply (pattern_across_chunks st 0
           (mkWatch PipeWatch "/tmp/zellij-pipe-p" ["DONE"] 2000 true
                    EmptyString false true None)
           "processing DO" "NE" "DONE"); reflexivity.
Defined.

(** ** The rate limiter *)


Section RateLimit.

Import Validator.

Variables (identifier : string) (maxRequests windowMs : option Z).

Let maxR := default 100 maxRequests.

Lemma checkRateLimit_in_window (t : Z) (m : gmap string RateEntry) (c R : Z) :
  m !! identifier = Some (mkRate c R) ->
  t <= R ->
  checkRateLimit identifier maxRequests windowMs t m
  = if maxR <=? c then (m, false)
    else (<[identifier := mkRate (c + 1) R]> m, true).
Proof.
  intros Hm Ht. unfold checkRateLimit. rewrite Hm. cbn [resetTime count].
  by replace (R <? t) with false by (symmetry; apply Z.ltb_ge; lia).
Qed.

(** Within an open window: calls are admitted until the count reaches the
    maximum, and the window does not move. *)
Lemma rate_calls_in_window (ts : list Z) (m : gmap string RateEntry) (c R : Z) :
  m !! identifier = Some (mkRate c R) ->
  Forall (fun t => t <= R) ts ->
  let n := length ts in
  let room := Z.to_nat (maxR - c) in
  (rate_calls identifier maxRequests windowMs ts m).2
  = replicate (n `min` room) true ++ replicate (n - room) false /\
  exists c', (rate_calls identifier maxRequests windowMs ts m).1 !! identifier
             = Some (mkRate c' R).
Proof.
  revert m c. induction ts as [|t ts IH]; intros m c Hm Hts n room.
  - split; [reflexivity|]. by exists c.
  - apply Forall_cons in Hts as [Ht Hts]. cbn [rate_calls]. cbv zeta.
    rewrite (checkRateLimit_in_window t m c R Hm Ht).
    destruct (maxR <=? c) eqn:Hfull; cbn [fst snd].
    + apply Z.leb_le in Hfull.
      destruct (IH m c Hm Hts) as [Hres Hentry].
      split; [|exact Hentry]. rewrite Hres. subst n room.
      replace (Z.to_nat (maxR - c)) with 0%nat by lia.
      rewrite !Nat.min_0_r, !Nat.sub_0_r. done.
    + apply Z.leb_gt in Hfull.
      destruct (IH (<[identifier := mkRate (c + 1) R]> m) (c + 1)) as [Hres Hentry];
        [apply lookup_insert_eq|done|].
      split; [|exact Hentry]. rewrite Hres. subst n room. cbn [length].
      replace (Z.to_nat (maxR - c)) with (S (Z.to_nat (maxR - (c + 1)))) by lia.
      done.
Qed.

End RateLimit.

(** X13.  The quota of [checkRateLimit].  For an identifier without an entry, the
    first call opens a window of [windowMs] and is admitted, whatever the
    maximum; of the calls that follow within the window, those up to
    [maxRequests] in total are admitted and all later ones are refused; the
    first call after the window is admitted again. *)
Theorem rate_limit_quota
    (identifier : string) (maxRequests windowMs : option Z)
    (m : gmap string Validator.RateEntry) (t0 : Z) (ts : list Z) (t' : Z) :
  m !! identifier = None ->
  Forall (fun t => t <= t0 + default 60000 windowMs) ts ->
  t0 + default 60000 windowMs < t' ->
  let quota := Z.to_nat (Z.max 1 (default 100 maxRequests)) in
  let n := S (length ts) in
  let r := rate_calls identifier maxRequests windowMs (t0 :: ts) m in
  r.2 = replicate (n `min` quota) true ++ replicate (n - quota) false /\
  (Validator.checkRateLimit identifier maxRequests windowMs t' r.1).2 = true.
Proof.
  intros Hm Hts Hlater quota n r. subst r. cbn [rate_calls]. cbv zeta.
  assert (Validator.checkRateLimit identifier maxRequests windowMs t0 m
          = (<[identifier := Validator.mkRate 1 (t0 + default 60000 windowMs)]> m,
             true)) as ->.
  { unfold Validator.checkRateLimit. by rewrite Hm. }
  cbn [fst snd].
  destruct (rate_calls_in_window identifier maxRequests windowMs ts
              (<[identifier := Validator.mkRate 1 (t0 + default 60000 windowMs)]> m)
              1 (t0 + default 60000 windowMs)) as [Hres [c' Hentry]];
    [apply lookup_insert_eq|done|].
  split.
  - rewrite Hres. subst quota n.
    destruct (Z.max_spec 1 (default 100 maxRequests)) as [[? ->]|[? ->]].
    + replace (Z.to_nat (default 100 maxRequests))
        with (S (Z.to_nat (default 100 maxRequests - 1))) by lia.
      reflexivity.
    + replace (Z.to_nat (default 100 maxRequests - 1)) with 0%nat by lia.
      rewrite Nat.min_0_r, Nat.sub_0_r. cbn [replicate app].
      replace (Z.to_nat 1) with 1%nat by lia.
      cbn [Nat.min Nat.sub]. by rewrite Nat.min_0_r, Nat.sub_0_r.
  - unfold Validator.checkRateLimit. rewrite Hentry. cbn [Validator.resetTime].
    by replace (t0 + default 60000 windowMs <? t') with true
      by (symmetry; apply Z.ltb_lt; lia).
Qed.

Lemma rate_limit_quota_witness :
  (rate_calls "tool_zellij_watch_file" (Some 2) (Some 60000) [0; 10; 20; 60000] ∅).2
  = [true; true; false; false].
Proof.
  destruct (rate_limit_quota "tool_zellij_watch_file" (Some 2) (Some 60000) ∅ 0
              [10; 20; 60000] 60001) as [Hres _].
  - reflexivity.
  - repeat constructor; simpl; lia.
  - simpl. lia.
  - exact Hres.
Defined.

(** ** The cache *)

Section CacheProps.

Import Cache.

Context {V : Type}.

Implicit Types (m : list (string * CacheEntry V)) (e : CacheEntry V).

Lemma map_get_set_eq key e m : map_get key (map_set key e m) = Some e.
Proof.
  induction m as [|[k e'] m IH]; cbn [map_set map_get].
  - by rewrite bool_decide_eq_true_2.
  - case_bool_decide as Hk; cbn [map_get].
    + by rewrite bool_decide_eq_true_2.
    + by rewrite bool_decide_eq_false_2.
Qed.

Lemma map_get_set_ne key key' e m :
  key' <> key -> map_get key' (map_set key e m) = map_get key' m.
Proof.
  intros Hne. induction m as [|[k e'] m IH]; cbn [map_set map_get].
  - by rewrite bool_decide_eq_false_2.
  - case_bool_decide as Hk; cbn [map_get].
    + subst k. by rewrite !bool_decide_eq_false_2.
    + by rewrite IH.
Qed.

Lemma map_get_delete_eq key m : map_get key (map_delete key m) = None.
Proof.
  unfold map_delete. induction m as [|[k e'] m IH]; [done|].
  rewrite filter_cons. cbn [fst]. destruct (decide (k <> key)) as [Hk|Hk]; [|done].
  cbn [map_get]. by rewrite bool_decide_eq_false_2.
Qed.

Lemma map_get_delete_ne key key' m :
  key' <> key -> map_get key' (map_delete key m) = map_get key' m.
Proof.
  intros Hne. unfold map_delete. induction m as [|[k e'] m IH]; [done|].
  rewrite filter_cons. cbn [fst]. destruct (decide (k <> key)) as [Hk|Hk].
  - cbn [map_get]. by rewrite IH.
  - apply dec_stable in Hk. subst k. cbn [map_get].
    by rewrite bool_decide_eq_false_2.
Qed.

Lemma map_get_None key m : map_get key m = None <-> key ∉ m.*1.
Proof.
  induction m as [|[k e'] m IH]; cbn [map_get fmap list_fmap fst].
  - split; [intros _; apply not_elem_of_nil|done].
  - rewrite not_elem_of_cons. case_bool_decide as Hk.
    + split; [done|]. intros [? _]. congruence.
    + rewrite IH. split; [intros ?; split; congruence|tauto].
Qed.

Lemma map_get_Some key e m : map_get key m = Some e -> (key, e) ∈ m.
Proof.
  induction m as [|[k e'] m IH]; cbn [map_get]; [done|].
  case_bool_decide as Hk.
  - intros [= ->]. subst k. apply list_elem_of_here.
  - intros H. apply list_elem_of_further. by apply IH.
Qed.

Lemma map_get_unique key e m :
  NoDup m.*1 -> (key, e) ∈ m -> map_get key m = Some e.
Proof.
  induction m as [|[k e'] m IH]; cbn [map_get fmap list_fmap fst].
  - intros _ H. by apply elem_of_nil in H.
  - intros [Hk Hm]%NoDup_cons [Heq|Hin]%elem_of_cons.
    + injection Heq as -> ->. by rewrite bool_decide_eq_true_2.
    + case_bool_decide as Hkk.
      * subst k. exfalso. apply Hk. apply (list_elem_of_fmap_2 fst) in Hin. exact Hin.
      * by apply IH.
Qed.

(** The keys of the map stay distinct. *)
Lemma keys_map_set key e m :
  (map_set key e m).*1 = if bool_decide (key ∈ m.*1) then m.*1 else m.*1 ++ [key].
Proof.
  induction m as [|[k e'] m IH]; cbn [map_set fmap list_fmap fst app].
  - rewrite bool_decide_eq_false_2; [done|apply not_elem_of_nil].
  - destruct (decide (k = key)) as [->|Hk].
    + rewrite (bool_decide_eq_true_2 (key = key)) by done.
      cbn [fmap list_fmap fst].
      rewrite bool_decide_eq_true_2; [done|apply list_elem_of_here].
    + rewrite (bool_decide_eq_false_2 (k = key)) by done.
      cbn [fmap list_fmap fst]. change (list_fmap _ _ fst ?l) with (l.*1). rewrite IH.
      destruct (decide (key ∈ m.*1)) as [Hin|Hin].
      * rewrite !bool_decide_eq_true_2; [done|by apply list_elem_of_further|done].
      * rewrite !bool_decide_eq_false_2; [done| |done].
        rewrite not_elem_of_cons. split; congruence.
Qed.

Lemma NoDup_map_set key e m : NoDup m.*1 -> NoDup (map_set key e m).*1.
Proof.
  intros Hm. rewrite keys_map_set. case_bool_decide as Hin; [done|].
  apply NoDup_app. split; [done|]. split.
  - intros x Hx ->%list_elem_of_singleton. done.
  - apply NoDup_singleton.
Qed.

Lemma NoDup_keys_filter (P : string * CacheEntry V -> Prop)
    `{!forall kv, Decision (P kv)} m :
  NoDup m.*1 -> NoDup (filter P m).*1.
Proof.
  induction m as [|[k e'] m IH]; [done|].
  cbn [fmap list_fmap fst]. intros [Hk Hm]%NoDup_cons.
  rewrite filter_cons. destruct (decide (P (k, e'))); [|by apply IH].
  cbn [fmap list_fmap fst]. apply NoDup_cons. split; [|by apply IH].
  intros Hin. apply Hk. apply list_elem_of_fmap in Hin as [[k' e''] [Hkk Hin]].
  apply list_elem_of_filter in Hin as [_ Hin]. cbn in Hkk. subst k'.
  by apply (list_elem_of_fmap_2 fst) in Hin.
Qed.

Lemma keys_unique_preserved m :
  NoDup m.*1 ->
  (forall key v ttl now, NoDup (set key v ttl now m).*1) /\
  (forall key now, NoDup (get key now m).1.*1) /\
  (forall key now, NoDup (has key now m).1.*1) /\
  (forall key, NoDup (delete key m).*1) /\
  (forall now, NoDup (cleanup now m).*1) /\
  (forall now, NoDup (getStats now m).1.*1).
Proof.
  intros Hm. repeat split; intros.
  - by apply NoDup_map_set.
  - unfold get. destruct (map_get key m) as [e|]; [|done].
    destruct (expiry e <? now); [|done]. by apply NoDup_keys_filter.
  - unfold has. destruct (map_get key m) as [e|]; [|done].
    destruct (expiry e <? now); [|done]. by apply NoDup_keys_filter.
  - by apply NoDup_keys_filter.
  - by apply NoDup_keys_filter.
  - by apply NoDup_keys_filter.
Qed.

Lemma map_get_cleanup key now m :
  NoDup m.*1 ->
  map_get key (cleanup now m)
  = match map_get key m with
    | Some e => if expiry e <? now then None else Some e
    | None => None
    end.
Proof.
  intros Hm. destruct (map_get key m) as [e|] eqn:Hget.
  - destruct (expiry e <? now) eqn:Hexp.
    + apply Z.ltb_lt in Hexp. apply map_get_None. intros Hin.
      apply list_elem_of_fmap in Hin as [[k e'] [Hk Hin]]. cbn in Hk. subst k.
      apply list_elem_of_filter in Hin as [Hlive Hin]. cbn in Hlive.
      apply (map_get_unique _ _ _ Hm) in Hin. congruence.
    + apply Z.ltb_ge in Hexp. apply map_get_unique.
      * by apply NoDup_keys_filter.
      * apply list_elem_of_filter. split; [cbn; lia|by apply map_get_Some].
  - apply map_get_None. apply map_get_None in Hget. intros Hin. apply Hget.
    apply list_elem_of_fmap in Hin as [[k e'] [Hk Hin]].
    apply list_elem_of_filter in Hin as [_ Hin].
    apply list_elem_of_fmap. by exists (k, e').
Qed.

Lemma get_set_eq key (v : V) ttlMs now now' m :
  (get key now' (set key v ttlMs now m)).2
  = if now + effective_ttl ttlMs <? now' then None else Some v.
Proof.
  unfold get, set. rewrite map_get_set_eq. cbn [expiry value].
  by destruct (now + effective_ttl ttlMs <? now').
Qed.

Lemma get_set_ne key key' (v : V) ttlMs now now' m :
  key' <> key ->
  (get key' now' (set key v ttlMs now m)).2 = (get key' now' m).2.
Proof.
  intros Hne. unfold get, set. rewrite map_get_set_ne by done.
  destruct (map_get key' m) as [e|]; [|done]. by destruct (expiry e <? now').
Qed.

Lemma get_delete_ne key key' now m :
  key' <> key -> (get key' now (delete key m)).2 = (get key' now m).2.
Proof.
  intros Hne. unfold get, delete. rewrite map_get_delete_ne by done.
  destruct (map_get key' m) as [e|]; [|done]. by destruct (expiry e <? now).
Qed.

End CacheProps.

(** X14.  What is stored is served until it expires.  A [get] after a [set]: for
    the key that was set, the value as long as the clock has not passed the
    time of the [set] plus the lifetime (the default of 5000 ms when no
    lifetime or a lifetime of 0 is given), and [null] afterwards, whatever
    the cache held for the key before; for any other key, what the cache
    answered before the [set]. *)
Theorem cache_set_then_get {V : Type} (key key' : string) (v : V)
    (ttlMs : option Z) (now now' : Z) (m : list (string * Cache.CacheEntry V)) :
  (Cache.get key' now' (Cache.set key v ttlMs now m)).2
  = if bool_decide (key' = key)
    then (if now + Cache.effective_ttl ttlMs <? now' then None else Some v)
    else (Cache.get key' now' m).2.
Proof.
  case_bool_decide as Hk.
  - subst key'. apply get_set_eq.
  - by apply get_set_ne.
Qed.

(** X15.  The periodic [cleanup] is invisible to readers: at the time of the
    cleanup and at any later time, [get] and [has] answer on the cleaned
    cache what they answer on the cache as it was. *)
Theorem cache_cleanup_is_transparent {V : Type}
    (m : list (string * Cache.CacheEntry V)) (key : string) (now now' : Z) :
  NoDup m.*1 ->
  now <= now' ->
  (Cache.get key now' (Cache.cleanup now m)).2 = (Cache.get key now' m).2 /\
  (Cache.has key now' (Cache.cleanup now m)).2 = (Cache.has key now' m).2.
Proof.
  intros Hm Hnow. unfold Cache.get, Cache.has. rewrite map_get_cleanup by done.
  destruct (Cache.map_get key m) as [e|]; [|done].
  destruct (Cache.expiry e <? now) eqn:Hexp;
    [|by destruct (Cache.expiry e <? now')].
  apply Z.ltb_lt in Hexp.
  by replace (Cache.expiry e <? now') with true by (symmetry; apply Z.ltb_lt; lia).
Qed.

Lemma cache_cleanup_is_transparent_witness :
  (Cache.get "layouts_list_default" 70000
     (Cache.cleanup 60000
        (Cache.set "layouts_list_default" "Available Layouts:" (Some 30000) 45000
           (Cache.set "sessions" "main" None 1000 [])))).2
  = Some "Available Layouts:".
Proof.
  destruct (cache_cleanup_is_transparent
              (Cache.set "layouts_list_default" "Available Layouts:" (Some 30000) 45000
                 (Cache.set "sessions" "main" None 1000 []))
              "layouts_list_default" 60000 70000) as [Hget _].
  - vm_compute. apply NoDup_cons_2; [|apply NoDup_singleton].
    intros ?%list_elem_of_singleton. discriminate.
  - lia.
  - rewrite Hget. reflexivity.
Defined.

(** X16.  The statistics count what a reader can still get: [getStats] reports as
    many keys as its size says, no key twice, and exactly the keys for which
    [has] answers [true] at that time. *)
Theorem getStats_lists_live_keys {V : Type}
    (m : list (string * Cache.CacheEntry V)) (now : Z) :
  NoDup m.*1 ->
  let stats := (Cache.getStats now m).2 in
  stats.1 = length stats.2 /\
  NoDup stats.2 /\
  forall key, key ∈ stats.2 <-> (Cache.has key now m).2 = true.
Proof.
  intros Hm stats. subst stats. unfold Cache.getStats. cbn [fst snd].
  split; [by rewrite length_fmap|]. split; [by apply NoDup_keys_filter|].
  intros key. unfold Cache.has.
  pose proof (map_get_cleanup key now m Hm) as Hclean.
  destruct (Cache.map_get key m) as [e|].
  - destruct (Cache.expiry e <? now); cbn [snd].
    + apply map_get_None in Hclean. split; [done|discriminate].
    + split; [done|]. intros _. apply map_get_Some in Hclean.
      by apply (list_elem_of_fmap_2 fst) in Hclean.
  - apply map_get_None in Hclean. split; [done|discriminate].
Qed.

Lemma getStats_lists_live_keys_witness :
  (Cache.getStats 60000
     (Cache.set "layouts_list_default" "Available Layouts:" (Some 30000) 45000
        (Cache.set "sessions" "main" None 1000 []))).2
  = (1%nat, ["layouts_list_default"]).
Proof.
  destruct (getStats_lists_live_keys
              (Cache.set "layouts_list_default" "Available Layouts:" (Some 30000) 45000
                 (Cache.set "sessions" "main" None 1000 []))
              60000) as [_ _].
  - vm_compute. apply NoDup_cons_2; [|apply NoDup_singleton].
    intros ?%list_elem_of_singleton. discriminate.
  - reflexivity.
Defined.

(** X17.  An entry that a reader found expired is gone: once [get] has answered
    [null] for a key, [get] and [has] answer [null] and [false] for it at
    any time, also when the clock is set back, until the key is set again. *)
Theorem cache_miss_is_final {V : Type}
    (m : list (string * Cache.CacheEntry V)) (key : string) (now : Z) :
  (Cache.get key now m).2 = None ->
  forall now',
    (Cache.get key now' (Cache.get key now m).1).2 = None /\
    (Cache.has key now' (Cache.get key now m).1).2 = false.
Proof.
  unfold Cache.get, Cache.has.
  destruct (Cache.map_get key m) as [e|] eqn:Hget.
  - destruct (Cache.expiry e <? now); [|discriminate].
    intros _ now'. cbn [fst]. by rewrite map_get_delete_eq.
  - intros _ now'. cbn [fst]. by rewrite Hget.
Qed.

Lemma cache_miss_is_final_witness :
  (Cache.get "sessions" 2000
     (Cache.get "sessions" 7000 (Cache.set "sessions" "main" None 1000 [])).1).2
  = None.
Proof.
  apply (cache_miss_is_final (Cache.set "sessions" "main" None 1000 [])
           "sessions" 7000); reflexivity.
Defined.

(** ** Text and enumerated words *)


Section Text.

Import Regex Validator.

Lemma matches_one_of cs s :
  matches (one_of cs) s
  <-> exists c, s = String c EmptyString /\ In c (list_ascii_of_string cs).
Proof.
  unfold one_of. split.
  - intros H. apply matches_set_inv in H as (c & -> & Hc). exists c.
    split; [done|]. by apply includes_char.
  - intros (c & -> & Hc). constructor. by apply includes_char.
Qed.

Lemma matches_ansiEscape s : matches ansiEscape s <-> csi_sequence s.
Proof.
  unfold ansiEscape, csi_sequence. split.
  - intros H. apply matches_seq_inv in H as (e & u & -> & He & Hu).
    apply matches_set_inv in He as (c & -> & Hc).
    apply bool_decide_eq_true_1 in Hc as ->.
    apply matches_seq_inv in Hu as (b & u' & -> & Hb & Hu).
    apply matches_set_inv in Hb as (c & -> & Hc).
    apply bool_decide_eq_true_1 in Hc as ->.
    apply matches_seq_inv in Hu as (params & f & -> & Hp & Hf).
    apply matches_one_of in Hf as (final & -> & Hfinal).
    exists params, final. split; [done|]. split; [|done].
    apply matches_star_set in Hp. rewrite forallb_forall in Hp.
    intros c Hc. apply includes_char. by apply Hp.
  - intros (params & final & -> & Hp & Hf).
    change (String "027" (String "[" (params +:+ String final EmptyString)))
      with (String "027" EmptyString
            +:+ (String "[" EmptyString +:+ (params +:+ String final EmptyString))).
    constructor; [constructor; by apply bool_decide_eq_true_2|].
    constructor; [constructor; by apply bool_decide_eq_true_2|].
    constructor.
    + apply matches_star_set, forallb_forall. intros c Hc.
      apply includes_char. by apply Hp.
    + apply matches_one_of. by exists final.
Qed.

Lemma toLowerCase_empty s : Js.toLowerCase s = EmptyString <-> s = EmptyString.
Proof. by destruct s. Qed.

Lemma validateEnum_ignores_case what allowed a b :
  Js.toLowerCase a = Js.toLowerCase b ->
  validateEnum what allowed a = validateEnum what allowed b.
Proof.
  intros Hab. unfold validateEnum. rewrite <- Hab.
  assert (bool_decide (a = EmptyString) = bool_decide (b = EmptyString)) as ->; [|done].
  apply bool_decide_ext.
  rewrite <- (toLowerCase_empty a), <- (toLowerCase_empty b). by rewrite Hab.
Qed.

End Text.

(** X18.  [validateText] accepts exactly the texts that are not empty, are at most
    10000 characters long and contain no control sequence of the form ESC
    [[] digits-and-semicolons [m|G|K|H]; the accepted text is handed on as
    it is. *)
Theorem validateText_accepts (text : string) :
  (Validator.valid (Validator.validateText text) = true
   <-> text <> EmptyString /\ Z.of_nat (String.length text) <= 10000 /\
       forall pre mid post, text = pre +:+ mid +:+ post -> ~ csi_sequence mid) /\
  Validator.sanitized (Validator.validateText text) = text.
Proof.
  split; [|reflexivity]. unfold Validator.validateText. rewrite result_valid.
  case_bool_decide as Hempty.
  { split; [done|]. intros [? _]. congruence. }
  destruct (10000 <? Z.of_nat (String.length text)) eqn:Hlen; cbn [app].
  { split; [done|]. intros (_ & Hle & _). apply Z.ltb_lt in Hlen. lia. }
  apply Z.ltb_ge in Hlen.
  destruct (Regex.test Validator.ansiEscape text) eqn:Hansi.
  - split; [done|]. intros (_ & _ & Hno).
    apply test_matches in Hansi as (pre & mid & post & -> & Hmid).
    apply matches_ansiEscape in Hmid. exfalso. by apply (Hno pre mid post).
  - split; [|done]. intros _. split; [done|]. split; [lia|].
    intros pre mid post -> Hmid. apply not_true_iff_false in Hansi. apply Hansi.
    apply test_matches. exists pre, mid, post. split; [done|].
    by apply matches_ansiEscape.
Qed.

(** X19.  The validators of a direction, a split direction and a resize amount
    look at the lower-cased word only: two spellings that differ in case
    alone get the same result, verdict, messages and sanitized value. *)
Theorem enum_validators_ignore_case (a b : string) :
  Js.toLowerCase a = Js.toLowerCase b ->
  Validator.validateDirection a = Validator.validateDirection b /\
  Validator.validateSplitDirection a = Validator.validateSplitDirection b /\
  Validator.validateResizeAmount a = Validator.validateResizeAmount b.
Proof.
  intros Hab. repeat split; by apply validateEnum_ignores_case.
Qed.

Lemma enum_validators_ignore_case_witness :
  Validator.validateDirection "Left" = Validator.validateDirection "LEFT" /\
  Validator.sanitized (Validator.validateDirection "LEFT") = "left".
Proof.
  destruct (enum_validators_ignore_case "Left" "LEFT" eq_refl) as (Hd & _ & _).
  split; [exact Hd|reflexivity].
Defined.

(** ** Layout listings and the cache *)

Section LayoutProps.

Import Layouts.

Context {Fs : Type}.
Variable existsSync : Fs -> string -> bool.
Variable readdirSync : Fs -> string -> string + list string.
Variable mkdirSync : Fs -> string -> Fs * option string.
Variable writeFileSync : Fs -> string -> string -> Fs * option string.
Variable run : string -> Detection.ExecOutcome.
Variable home : option string.
Variable join : string -> string -> string.

Local Notation "'list_layouts'" := (listLayouts Fs existsSync readdirSync home join).
Local Notation "'save_layout'" :=
  (saveLayout Fs existsSync mkdirSync writeFileSync run home join).

Lemma cacheKey_not_layouts_list layoutsDir : cacheKey layoutsDir <> "layouts_list".
Proof.
  unfold cacheKey. cbv [String.append]. discriminate.
Qed.

(** [saveLayout] leaves every entry of a listing where it is. *)
Lemma saveLayout_keeps_listings name dir dir' now (w : World Fs) :
  (Cache.get (cacheKey dir') now (cache (save_layout name dir w).1)).2
  = (Cache.get (cacheKey dir') now (cache w)).2.
Proof.
  unfold saveLayout.
  destruct (negb _); [done|]. destruct (Js.includes _ _); [done|].
  cbv zeta. destruct (existsSync _ _); cbn [fst snd].
  - destruct (run _); [|done]. destruct (writeFileSync _ _ _) as [f [m|]]; [done|].
    cbn [fst snd cache]. apply get_delete_ne, cacheKey_not_layouts_list.
  - destruct (mkdirSync _ _) as [f [m|]]; [done|]. cbn [fst snd].
    destruct (run _); [|done]. destruct (writeFileSync _ _ _) as [f' [m|]]; [done|].
    cbn [fst snd cache]. apply get_delete_ne, cacheKey_not_layouts_list.
Qed.

Lemma listLayouts_cached layoutsDir now (w : World Fs) c s :
  (Cache.get (cacheKey layoutsDir) now (cache w)).2 = Some (String c s) ->
  (list_layouts layoutsDir now w).2 = Resolved (String c s).
Proof. intros Hhit. unfold listLayouts. cbv zeta. by rewrite Hhit. Qed.

End LayoutProps.

(** X20.  A listing outlives a save.  When [listLayouts] has computed a listing
    at time [now0] and stored it, and a layout is then saved to the same
    directory, [listLayouts] still answers with the old listing up to 30
    seconds after [now0], whatever the directory holds by then: the key
    that [saveLayout] deletes is not a key under which a listing is
    stored. *)
Theorem listing_outlives_saveLayout {Fs : Type}
    (existsSync : Fs -> string -> bool)
    (readdirSync : Fs -> string -> string + list string)
    (mkdirSync : Fs -> string -> Fs * option string)
    (writeFileSync : Fs -> string -> string -> Fs * option string)
    (run : string -> Detection.ExecOutcome)
    (home : option string) (join : string -> string -> string)
    (layoutsDir : option string) (layoutName : string) (now0 now1 : Z)
    (w0 : Layouts.World Fs) (fsA fsB : Fs) (text : string) :
  let list_layouts := Layouts.listLayouts Fs existsSync readdirSync home join in
  let save_layout :=
    Layouts.saveLayout Fs existsSync mkdirSync writeFileSync run home join in
  (Cache.get (Layouts.cacheKey layoutsDir) now0 (Layouts.cache w0)).2 = None ->
  (list_layouts layoutsDir now0 w0).2 = Resolved text ->
  now1 <= now0 + 30000 ->
  let w1 := (list_layouts layoutsDir now0 w0).1 in
  let w2 := (save_layout layoutName layoutsDir (Layouts.mkWorld fsA (Layouts.cache w1))).1 in
  (list_layouts layoutsDir now1 (Layouts.mkWorld fsB (Layouts.cache w2))).2
  = Resolved text.
Proof.
  intros list_layouts save_layout Hmiss Hfirst Hsoon w1 w2.
  subst list_layouts save_layout w1 w2.
  unfold Layouts.listLayouts at 1 in Hfirst. cbv zeta in Hfirst.
  unfold Layouts.listLayouts at 2. cbv zeta.
  rewrite Hmiss in *.
  destruct (Layouts.custom_section _ _ _ _ _) as [message|custom]; [done|].
  cbn [snd] in Hfirst. injection Hfirst as Htext.
  cbn [fst Layouts.cache].
  set (c1 := Cache.set _ _ _ _ _).
  assert (exists c s, text = String c s) as (c & s & Hcs).
  { rewrite <- Htext. cbv [String.append]. by eexists _, _. }
  rewrite Hcs. apply listLayouts_cached. cbn [Layouts.cache].
  rewrite saveLayout_keeps_listings. cbn [Layouts.cache]. subst c1.
  rewrite get_set_eq.
  change (Cache.effective_ttl (Some 30000)) with 30000.
  replace (now0 + 30000 <? now1) with false by (symmetry; apply Z.ltb_ge; lia).
  by rewrite <- Hcs, <- Htext.
Qed.

Lemma listing_outlives_saveLayout_witness :
  let existsSync := fun (_ : list string) (_ : string) => true in
  let readdirSync := fun (f : list string) (_ : string) => inr f : string + list string in
  let mkdirSync := fun (f : list string) (_ : string) => (f, None : option string) in
  let writeFileSync :=
    fun (f : list string) (_ _ : string) => ("work.kdl" :: f, None : option string) in
  let join := fun a b => a +:+ "/" +:+ b in
  let list_layouts :=
    Layouts.listLayouts (list string) existsSync readdirSync (Some "/home/u") join in
  let save_layout :=
    Layouts.saveLayout (list string) existsSync mkdirSync writeFileSync quiet_os
      (Some "/home/u") join in
  let w1 := (list_layouts None 0 (Layouts.mkWorld [] [])).1 in
  let w2 := (save_layout "work" None w1).1 in
  Layouts.fs w2 = ["work.kdl"] /\
  (list_layouts None 20000 w2).2
  = Resolved ("Available Layouts:" +:+ Js.nl +:+ Js.nl
              +:+ "No custom layouts found in /home/u/.config/zellij/layouts" +:+ Js.nl
              +:+ Layouts.builtin).
Proof.
  intros. split; [reflexivity|].
  apply (listing_outlives_saveLayout existsSync readdirSync mkdirSync writeFileSync
           quiet_os (Some "/home/u") join None "work" 0 20000
           (Layouts.mkWorld [] []) [] ["work.kdl"]).
  - reflexivity.
  - reflexivity.
  - lia.
Defined.
